(** * deploy.py: specialization resolution and symlink planning

    A shallow embedding of [src/deploy.py] (classes [SpecializedItem] and
    [SymlinkContainer], and the file loop of [main]) together with the parts
    of the Python standard library the script relies on: a backtracking
    semantics for the fragment of [re] that the script's patterns live in,
    and the string functions of [posixpath].

    Python values are modelled as follows.
    - [str] is [string]; the matcher works on the list of its characters.
    - [None]-or-[str] attributes are [option string].
    - the dict of [SymlinkContainer] is a [gmap string entry].
    - a call that may raise returns in [res]. *)

From stdpp Require Import base option list gmap strings.
From Stdlib Require Import ZArith Lia Ascii String Permutation.

Local Open Scope string_scope.
Local Open Scope list_scope.

(** ** Results of calls that may raise *)

Inductive exn :=
| TypeError
| ValueError
| ReOutsideFragment.
(* [ReOutsideFragment]: the pattern text is not in the fragment of the [re]
   syntax given a semantics below; this covers the patterns that Python
   itself rejects with [re.error]. *)

Inductive res (A : Type) :=
| Ret (a : A)
| Raise (e : exn).
Arguments Ret {A} a.
Arguments Raise {A} e.

Global Instance res_ret : MRet res := fun _ a => Ret a.
Global Instance res_bind : MBind res := fun _ _ f m =>
  match m with
  | Ret a => f a
  | Raise e => Raise e
  end.

Definition returns {A} (m : res A) : Prop := ∃ a, m = Ret a.

(** ** Characters and strings *)

Definition newline : ascii := "010"%char.

Abbreviation chars := list_ascii_of_string.
Abbreviation str := string_of_list_ascii.

(** ** The [re] fragment *)

Module Re.

(** Items that consume exactly one character. *)
Inductive cls :=
| CLit (c : ascii)
| CAny
| CSet (neg : bool) (cs : list ascii).

Definition cls_match (c : cls) (x : ascii) : bool :=
  match c with
  | CLit a => bool_decide (x = a)
  | CAny => negb (bool_decide (x = newline))
  | CSet neg cs => xorb neg (bool_decide (x ∈ cs))
  end.

(** Parsed patterns. [Opt], [Star] and [Plus] carry the laziness flag
    ([true] for [??], [*?], [+?]). *)
Inductive regex :=
| Eps
| One (c : cls)
| Bol
| Eol
| Seq (a b : regex)
| Alt (a b : regex)
| Group (n : nat) (a : regex)
| Opt (lz : bool) (a : regex)
| Star (lz : bool) (c : cls)
| Plus (lz : bool) (c : cls).

(** *** Parsing pattern text

    The parser mirrors [sre_parse._parse]: it reads the pattern left to
    right, keeps the items of the sequence being read, the alternatives
    already closed by [|], and a stack of the groups that are still open.
    Group numbers are given when a group opens. *)

Record frame := Frame {
  f_group : nat;            (* number of the group this frame belongs to *)
  f_alts : list regex;      (* alternatives closed so far, last first *)
  f_seq : list regex        (* items of the current sequence, last first *)
}.

Inductive mode :=
| MNormal
| MOpen                      (* after "(" *)
| MOpenQ                     (* after "(?" *)
| MOpenQP                    (* after "(?P" *)
| MName (acc : list ascii)   (* inside "(?P<", name so far, last first *)
| MSetStart                  (* after "[" *)
| MSet (neg : bool) (acc : list ascii).

Record pstate := PState {
  ps_mode : mode;
  ps_cur : frame;
  ps_stack : list frame;
  ps_count : nat;                       (* groups opened so far *)
  ps_names : list (string * nat)
}.

Definition seq_of (items : list regex) : regex := foldr Seq Eps items.

Fixpoint alt_of (a : regex) (alts : list regex) : regex :=
  match alts with
  | [] => a
  | b :: alts => Alt a (alt_of b alts)
  end.

(** The body of a frame: its alternatives in source order. *)
Definition frame_body (f : frame) : regex :=
  match rev (seq_of (rev (f_seq f)) :: f_alts f) with
  | [] => Eps
  | a :: alts => alt_of a alts
  end.

Definition push_item (r : regex) (st : pstate) : pstate :=
  let f := ps_cur st in
  PState MNormal (Frame (f_group f) (f_alts f) (r :: f_seq f))
         (ps_stack st) (ps_count st) (ps_names st).

(** A repeat character applied to the last item. Only [?] is supported on
    a group; a repeat of a repeat, of an anchor or of nothing is refused. *)
Definition quantify (q : ascii) (item : regex) : option regex :=
  match item with
  | One c =>
      if bool_decide (q = "*"%char) then Some (Star false c)
      else if bool_decide (q = "+"%char) then Some (Plus false c)
      else Some (Opt false (One c))
  | Group _ _ => if bool_decide (q = "?"%char) then Some (Opt false item) else None
  | Opt false a => if bool_decide (q = "?"%char) then Some (Opt true a) else None
  | Star false c => if bool_decide (q = "?"%char) then Some (Star true c) else None
  | Plus false c => if bool_decide (q = "?"%char) then Some (Plus true c) else None
  | _ => None
  end.

Definition open_group (name : option string) (st : pstate) : pstate :=
  let n := S (ps_count st) in
  PState MNormal (Frame n [] []) (ps_cur st :: ps_stack st) n
         (match name with
          | Some s => (s, n) :: ps_names st
          | None => ps_names st
          end).

Definition normal_step (st : pstate) (c : ascii) : option pstate :=
  let f := ps_cur st in
  if bool_decide (c = "("%char) then
    Some (PState MOpen f (ps_stack st) (ps_count st) (ps_names st))
  else if bool_decide (c = ")"%char) then
    match ps_stack st with
    | [] => None
    | parent :: stack =>
        Some (push_item (Group (f_group f) (frame_body f))
                (PState MNormal parent stack (ps_count st) (ps_names st)))
    end
  else if bool_decide (c = "|"%char) then
    Some (PState MNormal
            (Frame (f_group f) (seq_of (rev (f_seq f)) :: f_alts f) [])
            (ps_stack st) (ps_count st) (ps_names st))
  else if bool_decide (c = "["%char) then
    Some (PState MSetStart f (ps_stack st) (ps_count st) (ps_names st))
  else if bool_decide (c = "."%char) then Some (push_item (One CAny) st)
  else if bool_decide (c = "^"%char) then Some (push_item Bol st)
  else if bool_decide (c = "$"%char) then Some (push_item Eol st)
  else if bool_decide (c ∈ ["*"; "+"; "?"]%char) then
    match f_seq f with
    | [] => None
    | item :: items =>
        r ← quantify c item;
        Some (PState MNormal (Frame (f_group f) (f_alts f) (r :: items))
                (ps_stack st) (ps_count st) (ps_names st))
    end
  else if bool_decide (c ∈ ["{"; "\"]%char) then None
  else Some (push_item (One (CLit c)) st).

Definition is_alpha (c : ascii) : bool :=
  let n := nat_of_ascii c in
  ((65 <=? n) && (n <=? 90) || (97 <=? n) && (n <=? 122) || (n =? 95))%nat.

Definition is_digit (c : ascii) : bool :=
  let n := nat_of_ascii c in ((48 <=? n) && (n <=? 57))%nat.

Definition is_identifier (s : list ascii) : bool :=
  match s with
  | [] => false
  | c :: s => is_alpha c && forallb (fun c => is_alpha c || is_digit c) s
  end.

Definition set_step (neg : bool) (acc : list ascii) (st : pstate) (c : ascii)
  : option pstate :=
  if bool_decide (c = "]"%char) then
    match acc with
    | [] => None
    | _ => Some (push_item (One (CSet neg (rev acc))) st)
    end
  else if bool_decide (c ∈ ["\"; "-"; "["]%char) then None
  else Some (PState (MSet neg (c :: acc)) (ps_cur st) (ps_stack st)
               (ps_count st) (ps_names st)).

Definition step (st : pstate) (c : ascii) : option pstate :=
  let with_mode m :=
    PState m (ps_cur st) (ps_stack st) (ps_count st) (ps_names st) in
  match ps_mode st with
  | MNormal => normal_step st c
  | MOpen =>
      if bool_decide (c = "?"%char) then Some (with_mode MOpenQ)
      else normal_step (open_group None st) c
  | MOpenQ =>
      if bool_decide (c = "P"%char) then Some (with_mode MOpenQP) else None
  | MOpenQP =>
      if bool_decide (c = "<"%char) then Some (with_mode (MName [])) else None
  | MName acc =>
      if bool_decide (c = ">"%char) then
        let name := rev acc in
        if is_identifier name
           && negb (bool_decide (str name ∈ (ps_names st).*1))
        then Some (open_group (Some (str name)) st)
        else None
      else Some (with_mode (MName (c :: acc)))
  | MSetStart =>
      if bool_decide (c = "^"%char) then Some (with_mode (MSet true []))
      else set_step false [] st c
  | MSet neg acc => set_step neg acc st c
  end.

Fixpoint steps (st : pstate) (p : list ascii) : option pstate :=
  match p with
  | [] => Some st
  | c :: p => st' ← step st c; steps st' p
  end.

Record pattern := Pattern {
  p_re : regex;
  p_groups : nat;
  p_names : list (string * nat)
}.

Definition initial : pstate := PState MNormal (Frame 0 [] []) [] 0 [].

Definition finish (st : pstate) : option pattern :=
  match ps_mode st, ps_stack st with
  | MNormal, [] => Some (Pattern (frame_body (ps_cur st)) (ps_count st) (ps_names st))
  | _, _ => None
  end.

Definition compile (p : string) : res pattern :=
  match steps initial (chars p) ≫= finish with
  | Some pat => Ret pat
  | None => Raise ReOutsideFragment
  end.

(** *** Matching *)

Record mstate := MState {
  m_pos : nat;                          (* characters consumed so far *)
  m_rest : list ascii;                  (* input still to read *)
  m_caps : list (nat * list ascii)      (* groups set so far, last first *)
}.

Definition cont := mstate → option mstate.

Definition at_end (l : list ascii) : bool :=
  match l with
  | [] => true
  | [c] => bool_decide (c = newline)
  | _ => false
  end.

Definition one (c : cls) (k : cont) (st : mstate) : option mstate :=
  match m_rest st with
  | x :: l => if cls_match c x then k (MState (S (m_pos st)) l (m_caps st)) else None
  | [] => None
  end.

(** Greedy repeat of one-character items: longest run first. *)
Fixpoint star_greedy (c : cls) (k : cont) (pos : nat) (caps : list (nat * list ascii))
    (l : list ascii) : option mstate :=
  match l with
  | x :: l' =>
      if cls_match c x then
        match star_greedy c k (S pos) caps l' with
        | Some r => Some r
        | None => k (MState pos l caps)
        end
      else k (MState pos l caps)
  | [] => k (MState pos l caps)
  end.

(** Lazy repeat: shortest run first. *)
Fixpoint star_lazy (c : cls) (k : cont) (pos : nat) (caps : list (nat * list ascii))
    (l : list ascii) : option mstate :=
  match k (MState pos l caps) with
  | Some r => Some r
  | None =>
      match l with
      | x :: l' => if cls_match c x then star_lazy c k (S pos) caps l' else None
      | [] => None
      end
  end.

Definition star (lz : bool) (c : cls) (k : cont) (st : mstate) : option mstate :=
  (if lz then star_lazy else star_greedy) c k (m_pos st) (m_caps st) (m_rest st).

Definition close_group (n : nat) (start : mstate) (st : mstate) : mstate :=
  MState (m_pos st) (m_rest st)
         ((n, take (m_pos st - m_pos start) (m_rest start)) :: m_caps st).

Fixpoint m (r : regex) (k : cont) (st : mstate) : option mstate :=
  match r with
  | Eps => k st
  | One c => one c k st
  | Bol => if bool_decide (m_pos st = 0) then k st else None
  | Eol => if at_end (m_rest st) then k st else None
  | Seq a b => m a (m b k) st
  | Alt a b =>
      match m a k st with
      | Some r => Some r
      | None => m b k st
      end
  | Group n a => m a (fun st' => k (close_group n st st')) st
  | Opt false a =>
      match m a k st with
      | Some r => Some r
      | None => k st
      end
  | Opt true a =>
      match k st with
      | Some r => Some r
      | None => m a k st
      end
  | Star lz c => star lz c k st
  | Plus lz c => one c (star lz c k) st
  end.

Fixpoint cap (n : nat) (caps : list (nat * list ascii)) : option string :=
  match caps with
  | [] => None
  | (i, s) :: caps => if bool_decide (i = n) then Some (str s) else cap n caps
  end.

(** A match object: what the script reads off it. *)
Record match_obj := MatchObj {
  mo_groups : list (option string);               (* [match.groups()] *)
  mo_groupdict : list (string * option string)    (* [match.groupdict()] *)
}.

Definition match_of (pat : pattern) (st : mstate) : match_obj :=
  MatchObj ((fun i => cap i (m_caps st)) <$> seq 1 (p_groups pat))
           ((fun '(s, i) => (s, cap i (m_caps st))) <$> p_names pat).

(** [re.match(pattern, string)] with [string] a [str]. *)
Definition match_ (p : string) (s : string) : res (option match_obj) :=
  pat ← compile p;
  Ret (match_of pat <$> m (p_re pat) Some (MState 0 (chars s) [])).

(** [re.match(pattern, x)] where [x] may be [None]: the pattern is compiled
    first, then a [None] subject raises [TypeError]. *)
Definition match_opt (p : string) (s : option string) : res (option match_obj) :=
  pat ← compile p;
  match s with
  | None => Raise TypeError
  | Some s => Ret (match_of pat <$> m (p_re pat) Some (MState 0 (chars s) []))
  end.

(** [d[key]] on a group dict. *)
Fixpoint getitem (d : list (string * option string)) (key : string) : option string :=
  match d with
  | [] => None
  | (s, v) :: d => if bool_decide (s = key) then v else getitem d key
  end.

End Re.

(** ** [posixpath] *)

Module posixpath.

Definition startswith (s p : string) : bool := String.prefix p s.

Fixpoint endswith_sep (s : string) : bool :=
  match s with
  | "" => false
  | String c "" => bool_decide (c = "/"%char)
  | String _ s => endswith_sep s
  end.

(** One round of the loop of [join]. *)
Definition join2 (path b : string) : string :=
  if startswith b "/" then b
  else if bool_decide (path = "") || endswith_sep path then path +:+ b
  else path +:+ "/" +:+ b.

(** [join(a, *p)] *)
Definition join (a : string) (p : list string) : string := foldl join2 a p.

(** [s.split('/')] *)
Fixpoint split (s : string) : list string :=
  match s with
  | "" => [""]
  | String c s =>
      if bool_decide (c = "/"%char) then "" :: split s
      else match split s with
           | x :: xs => String c x :: xs
           | [] => [String c ""]
           end
  end.

(** ['/'.join(l)] *)
Fixpoint sep_join (l : list string) : string :=
  match l with
  | [] => ""
  | [x] => x
  | x :: l => x +:+ "/" +:+ sep_join l
  end.

(** The loop of [normpath]; [new_comps] is kept last first. *)
Fixpoint norm_comps (initial_slashes : nat) (new_comps comps : list string)
  : list string :=
  match comps with
  | [] => rev new_comps
  | comp :: comps =>
      if bool_decide (comp = "") || bool_decide (comp = ".") then
        norm_comps initial_slashes new_comps comps
      else if negb (bool_decide (comp = ".."))
              || (bool_decide (initial_slashes = 0)
                  && bool_decide (new_comps = []))
              || match new_comps with
                 | last :: _ => bool_decide (last = "..")
                 | [] => false
                 end
      then norm_comps initial_slashes (comp :: new_comps) comps
      else norm_comps initial_slashes (tail new_comps) comps
  end.

Definition normpath (path : string) : string :=
  if bool_decide (path = "") then "."
  else
    let initial_slashes :=
      if startswith path "/" then
        if startswith path "//" && negb (startswith path "///") then 2 else 1
      else 0 in
    let comps := norm_comps initial_slashes [] (split path) in
    let path := sep_join comps in
    let path :=
      match initial_slashes with
      | 0 => path
      | 1 => "/" +:+ path
      | _ => "//" +:+ path
      end in
    if bool_decide (path = "") then "." else path.

Definition isabs (s : string) : bool := startswith s "/".

Section cwd.
(** [os.getcwd()] *)
Variable cwd : string.

Definition abspath (path : string) : string :=
  normpath (if isabs path then path else join cwd [path]).

Fixpoint commonprefix_len (l1 l2 : list string) : nat :=
  match l1, l2 with
  | x :: l1, y :: l2 =>
      if bool_decide (x = y) then S (commonprefix_len l1 l2) else 0
  | _, _ => 0
  end.

Definition relpath (path start : string) : res string :=
  if bool_decide (path = "") then Raise ValueError
  else
    let nonempty := filter (fun x => x ≠ "") in
    let start_list := nonempty (split (abspath start)) in
    let path_list := nonempty (split (abspath path)) in
    let i := commonprefix_len start_list path_list in
    let rel_list := replicate (List.length start_list - i) ".." ++ drop i path_list in
    match rel_list with
    | [] => Ret "."
    | a :: p => Ret (join a p)
    end.

End cwd.
End posixpath.

(** ** [SpecializedItem] *)

(** The class attributes [username] and [host], as [main] sets them. *)
Record identity := Identity {
  username : string;
  host : string
}.

Record SpecializedItem := Item {
  filename : string;
  directory : string;
  destination : option string;
  _specialization : option string
}.

Definition expression_matcher : string :=
  "^(?P<name>.+?)(<(?P<specialization>[^<]*?)>$)?$".

(** [_split_specialization], on the item that [__init__] has filled with
    [None] for both derived attributes. *)
Definition _split_specialization (self : SpecializedItem) : res SpecializedItem :=
  matcher ← Re.match_ expression_matcher (filename self);
  match matcher with
  | Some mo =>
      let matches := Re.mo_groupdict mo in
      Ret (Item (filename self) (directory self)
             (Re.getitem matches "name")
             (Re.getitem matches "specialization"))
  | None => Ret self
  end.

(** [SpecializedItem(directory, filename)] *)
Definition new_item (directory filename : string) : res SpecializedItem :=
  _split_specialization (Item filename directory None None).

(** Truth value of a [None]-or-[str] attribute. *)
Definition truthy (s : option string) : bool :=
  match s with
  | Some s => negb (bool_decide (s = ""))
  | None => false
  end.

Section identity.
Variable idn : identity.

Definition valid_matcher : string :=
  "^(" +:+ host idn +:+ "|" +:+ username idn +:+ "(@" +:+ host idn +:+ ")?)$".

Definition priority_matcher : string :=
  "^(" +:+ host idn +:+ "|(" +:+ username idn +:+ "(@" +:+ host idn +:+ ")?))$".

Definition is_valid (self : SpecializedItem) : res bool :=
  if truthy (destination self) && bool_decide (_specialization self = None)
  then Ret true
  else
    mo ← Re.match_opt valid_matcher (_specialization self);
    Ret (bool_decide (mo ≠ None)).

Definition get_priority (self : SpecializedItem) : res Z :=
  if negb (truthy (_specialization self)) then Ret 0%Z
  else
    mo ← Re.match_opt priority_matcher (_specialization self);
    match mo with
    | None => Ret (-1)%Z
    | Some mo =>
        Ret (Z.of_nat (List.length (filter (fun g => truthy g = true) (Re.mo_groups mo))))
    end.

End identity.

(** ** [SymlinkContainer] *)

Record entry := Entry {
  source : string;
  priority : Z
}.

Record SymlinkContainer := Container {
  _container : gmap string entry;
  src_root : string;
  dst_root : string
}.

(** [SymlinkContainer(source_root, destination_root)] *)
Definition new_container (source_root destination_root : string) : SymlinkContainer :=
  Container ∅ source_root destination_root.

(** [__getitem__]; [None] stands for the [KeyError] of the dict. *)
Definition SymlinkContainer_getitem (self : SymlinkContainer) (destination : string)
  : option (string * string) :=
  e ← _container self !! destination; Some (source e, destination).

Section run.
Variable idn : identity.
(** [os.getcwd()] *)
Variable cwd : string.

(** The key computed by the first two statements of [add]. *)
Definition dst_of (self : SymlinkContainer) (item : SpecializedItem) : res string :=
  rel ← posixpath.relpath cwd (directory item) (src_root self);
  let dst_dir := posixpath.join (dst_root self) [rel] in
  match destination item with
  | None => Raise TypeError
  | Some name => Ret (posixpath.abspath cwd (posixpath.join dst_dir [name]))
  end.

Definition src_of (self : SymlinkContainer) (item : SpecializedItem) : string :=
  posixpath.join (src_root self) [directory item; filename item].

Definition add (self : SymlinkContainer) (item : SpecializedItem)
  : res SymlinkContainer :=
  dst ← dst_of self item;
  prio ← get_priority idn item;
  if match _container self !! dst with
     | None => true
     | Some e => bool_decide (priority e < prio)%Z
     end
  then
    let src := src_of self item in
    Ret (Container (<[dst := Entry src prio]> (_container self))
           (src_root self) (dst_root self))
  else Ret self.

(** The pairs produced by [__iter__]; the order of a dict's items is not
    modelled. *)
Definition items (self : SymlinkContainer) : list (string * string) :=
  (fun '(key, value) => (source value, key)) <$> map_to_list (_container self).

(** The loop over [files] in [main], for one directory [root] of the walk.
    [ignored] is the predicate built by [ignore_matcher_creator]. *)
Section walk.
Variable ignored : string → bool.

Definition process_file (root : string) (symlinks : SymlinkContainer)
    (name : string) : res SymlinkContainer :=
  item ← new_item root name;
  valid ← is_valid idn item;
  if negb valid || ignored (filename item) then Ret symlinks
  else add symlinks item.

Fixpoint process_files (root : string) (symlinks : SymlinkContainer)
    (files : list string) : res SymlinkContainer :=
  match files with
  | [] => Ret symlinks
  | name :: files =>
      symlinks ← process_file root symlinks name;
      process_files root symlinks files
  end.

End walk.

(** A sequence of [add] calls. *)
Fixpoint add_all (self : SymlinkContainer) (l : list SpecializedItem)
  : res SymlinkContainer :=
  match l with
  | [] => Ret self
  | item :: l => self ← add self item; add_all self l
  end.

End run.

(** ** [CPrinter] *)

Module CPrinter.

Definition esc : ascii := "027"%char.

Definition _cpurple : string := String esc "[95m".
Definition _cblue : string := String esc "[94m".
Definition _cgreen : string := String esc "[92m".
Definition _cyellow : string := String esc "[93m".
Definition _cred : string := String esc "[91m".
Definition _no_color : string := String esc "[0m".

Definition _clear (text : string) : string := _no_color +:+ text +:+ _no_color.

(** The method [color_text] that [__initialize__] makes for a colour
    attribute whose value is [code]. *)
Definition color_text (code msg : string) : string := _clear (code +:+ msg).

Definition purple : string → string := color_text _cpurple.
Definition blue : string → string := color_text _cblue.
Definition green : string → string := color_text _cgreen.
Definition yellow : string → string := color_text _cyellow.
Definition red : string → string := color_text _cred.

End CPrinter.

(** ** [ignore_matcher_creator] *)

(** [str.isspace] on one character (code points below 256). *)
Definition isspace (c : ascii) : bool :=
  let n := nat_of_ascii c in
  ((9 <=? n) && (n <=? 13) || (28 <=? n) && (n <=? 32) || (n =? 133) || (n =? 160))%nat.

Fixpoint lstrip (s : string) : string :=
  match s with
  | "" => ""
  | String c s' => if isspace c then lstrip s' else s
  end.

Fixpoint rstrip (s : string) : string :=
  match s with
  | "" => ""
  | String c s' =>
      match rstrip s' with
      | "" => if isspace c then "" else String c ""
      | r => String c r
      end
  end.

(** [s.strip()] *)
Definition strip (s : string) : string := rstrip (lstrip s).

(** What the function finds at [file_name]: no regular file, or the lines
    of the file. *)
Inductive ignore_file :=
| NoFile
| Lines (l : list string).

Section ignore.
(** [fnmatch.fnmatch(name, pat)] *)
Variable fnmatch : string → string → bool.

(** The set [matches]; the order in which a set yields its elements is not
    modelled. *)
Definition ignore_matches (f : ignore_file) : list string :=
  match f with
  | NoFile => []
  | Lines l => remove_dups (filter (fun m => m ≠ "") (strip <$> l))
  end.

(** The function returned by [ignore_matcher_creator(file_name)]. *)
Definition ignore_matcher_creator (f : ignore_file) (item : string) : option string :=
  List.find (fun m => fnmatch item m) (ignore_matches f).

End ignore.

(** ** The walk of [main] *)

Section main_walk.
Variable idn : identity.
(** [os.getcwd()] *)
Variable cwd : string.
Variable ignored : string → bool.

(** One round of the loop over [os.walk(source_root)], for the triple
    [(root, dirs, files)]; the state is [symlinks] and [directories]. *)
Definition visit (source_root destination_root : string)
    (st : SymlinkContainer * gset string)
    (triple : string * list string * list string)
  : res (SymlinkContainer * gset string) :=
  let '(root, dirs, files) := triple in
  rel_subroot ← posixpath.relpath cwd root source_root;
  if ignored rel_subroot then Ret st
  else
    symlinks ← process_files idn cwd ignored root st.1 files;
    match dirs with
    | [] =>
        let dest_subroot := posixpath.join destination_root [rel_subroot] in
        Ret (symlinks, {[posixpath.abspath cwd dest_subroot]} ∪ st.2)
    | _ :: _ => Ret (symlinks, st.2)
    end.

Fixpoint visit_all (source_root destination_root : string)
    (st : SymlinkContainer * gset string)
    (walk : list (string * list string * list string))
  : res (SymlinkContainer * gset string) :=
  match walk with
  | [] => Ret st
  | triple :: walk =>
      st ← visit source_root destination_root st triple;
      visit_all source_root destination_root st walk
  end.

(** [main] from the roots to the end of the walk; [walk] is what
    [os.walk(source_root)] yields. *)
Definition plan (source destination : string)
    (walk : list (string * list string * list string))
  : res (SymlinkContainer * gset string) :=
  let source_root := posixpath.abspath cwd source in
  let destination_root := posixpath.abspath cwd destination in
  visit_all source_root destination_root
    (new_container source_root destination_root, ∅) walk.

End main_walk.

(** ** Calls that change the file system *)

(** [FileExistsError], which [main] catches, and any other [OSError]. *)
Inductive os_error :=
| FileExistsError
| OSError.

Inductive os_res (W : Type) :=
| Done (w : W)
| Failed (e : os_error).
Arguments Done {W} w.
Arguments Failed {W} e.

(** The calls of [os] and [os.path] that the script makes, on a state [W]
    of the file system. *)
Record os_calls (W : Type) := OsCalls {
  isfile : W → string → bool;
  islink : W → string → bool;
  unlink : W → string → os_res W;
  symlink : W → string → string → os_res W;
  makedirs : W → string → os_res W
}.
Arguments isfile {W} _ _ _.
Arguments islink {W} _ _ _.
Arguments unlink {W} _ _ _.
Arguments symlink {W} _ _ _ _.
Arguments makedirs {W} _ _ _.

Section effects.
Context {W : Type} (os : os_calls W).

(** State of the file system, lines printed, and the exception that ended
    the call, if one did. *)
Definition outcome : Type := W * list string * option os_error.

(** The body of the loop of [generate] for one pair. *)
Definition link_one (force dry_mode : bool) (w : W) (src_dst : string * string)
  : outcome :=
  let '(src, dst) := src_dst in
  let line := CPrinter.green dst +:+ " --> " +:+ CPrinter.blue src in
  if dry_mode then (w, [line], None)
  else if force && (isfile os w dst || islink os w dst) then
    let removing := CPrinter.red ("Removing old " +:+ dst) in
    match unlink os w dst with
    | Failed e => (w, [removing], Some e)
    | Done w1 =>
        match symlink os w1 src dst with
        | Failed e => (w1, [removing], Some e)
        | Done w2 => (w2, [removing; line], None)
        end
    end
  else
    match symlink os w src dst with
    | Failed e => (w, [], Some e)
    | Done w2 => (w2, [line], None)
    end.

Fixpoint link_all (force dry_mode : bool) (w : W) (pairs : list (string * string))
  : outcome :=
  match pairs with
  | [] => (w, [], None)
  | src_dst :: pairs =>
      match link_one force dry_mode w src_dst with
      | (w1, out1, Some e) => (w1, out1, Some e)
      | (w1, out1, None) =>
          let '(w2, out2, r) := link_all force dry_mode w1 pairs in
          (w2, out1 ++ out2, r)
      end
  end.

(** [generate], over the pairs that [__iter__] yields. *)
Definition generate (self : SymlinkContainer) (force dry_mode : bool) (w : W)
  : outcome :=
  let header :=
    CPrinter.yellow (if dry_mode then "Symlinks to create:" else "Creating symlinks:") in
  let '(w1, out, r) := link_all force dry_mode w (items self) in
  (w1, header :: out, r).

(** The body of the loop over [directories] in [main]. *)
Definition make_directory (verbose dry : bool) (w : W) (directory : string)
  : outcome :=
  let say line := if verbose then [line] else [] in
  if dry then (w, say directory, None)
  else
    match makedirs os w directory with
    | Done w1 => (w1, say directory, None)
    | Failed FileExistsError => (w, say (directory +:+ " already exists"), None)
    | Failed e => (w, [], Some e)
    end.

Fixpoint make_directories (verbose dry : bool) (w : W) (directories : list string)
  : outcome :=
  match directories with
  | [] => (w, [], None)
  | directory :: directories =>
      match make_directory verbose dry w directory with
      | (w1, out1, Some e) => (w1, out1, Some e)
      | (w1, out1, None) =>
          let '(w2, out2, r) := make_directories verbose dry w1 directories in
          (w2, out1 ++ out2, r)
      end
  end.

(** The end of [main], from the line that prints the header of the
    directories: the directories, then [symlinks.generate]. The order in
    which the set [directories] yields its elements is not modelled. *)
Definition realize (verbose dry force : bool)
    (symlinks : SymlinkContainer) (directories : gset string) (w : W) : outcome :=
  let header :=
    if verbose && dry then [CPrinter.yellow "Directories to create:"]
    else if verbose then [CPrinter.yellow "Creating directories:"]
    else [] in
  match make_directories verbose dry w (elements directories) with
  | (w1, out1, Some e) => (w1, header ++ out1, Some e)
  | (w1, out1, None) =>
      let '(w2, out2, r) := generate symlinks force dry w1 in
      (w2, header ++ out1 ++ out2, r)
  end.

End effects.

(** ** [main] *)

(** [s.lower()] (code points below 256). *)
Definition lower_char (c : ascii) : ascii :=
  let n := nat_of_ascii c in
  if ((65 <=? n) && (n <=? 90) || (192 <=? n) && (n <=? 222) && negb (n =? 215))%nat
  then ascii_of_nat (n + 32) else c.

Fixpoint lower (s : string) : string :=
  match s with
  | "" => ""
  | String c s => String (lower_char c) (lower s)
  end.

(** The parsed command line. *)
Record arguments := Arguments_ {
  arg_source : string;
  arg_destination : string;
  arg_username : string;
  arg_hostname : string;
  arg_ignorefile : string;
  arg_verbose : bool;
  arg_dry : bool;
  arg_force : bool
}.

(** How a run of [main] ends. *)
Inductive ending :=
| Declined                     (* [exit()] after the question *)
| Uncaught (e : exn)           (* an exception during the walk *)
| OsUncaught (e : os_error)    (* an exception of a file system call *)
| Finished.

Section main.
Context {W : Type} (os : os_calls W).
(** [os.getcwd()] *)
Variable cwd : string.
(** [fnmatch.fnmatch] *)
Variable fnmatch : string → string → bool.

(** [main] after [parse_arguments]. [answer] is what [input] returns, if it
    is called; [ignore] is what is found at the path of the ignore file;
    [walk] is what [os.walk(source_root)] yields. The result is the state of
    the file system when [main] ends and the way it ends; what [main] prints
    is not part of it. *)
Definition main (args : arguments) (answer : string) (ignore : ignore_file)
    (walk : list (string * list string * list string)) (w : W) : W * ending :=
  if negb (arg_dry args) && negb (bool_decide (lower answer = "y")) then (w, Declined)
  else
    let ignored item := truthy (ignore_matcher_creator fnmatch ignore item) in
    let idn := Identity (arg_username args) (arg_hostname args) in
    match plan idn cwd ignored (arg_source args) (arg_destination args) walk with
    | Raise e => (w, Uncaught e)
    | Ret (symlinks, directories) =>
        match realize os (arg_verbose args) (arg_dry args) (arg_force args)
                symlinks directories w with
        | (w1, _, Some e) => (w1, OsUncaught e)
        | (w1, _, None) => (w1, Finished)
        end
    end.

End main.

(** * Notions used in the statements *)

Section add_notions.
Context (idn : identity) (cwd : string).

(** What one [add] does to the dict, once the key [d], the source [s] and
    the priority [p] of the item are known. *)
Definition put (m : gmap string entry) (d s : string) (p : Z) : gmap string entry :=
  match m !! d with
  | None => <[d := Entry s p]> m
  | Some e => if bool_decide (priority e < p)%Z then <[d := Entry s p]> m else m
  end.

(** The entry of key [d] after the calls [add] for [l]: the first item of
    [l] whose priority no other item of that key exceeds. *)
Definition selected (c0 : SymlinkContainer) (l : list SpecializedItem)
    (d : string) (e : entry) : Prop :=
  ∃ l1 it l2,
    l = l1 ++ it :: l2 ∧
    dst_of cwd c0 it = Ret d ∧
    get_priority idn it = Ret (priority e) ∧
    source e = src_of c0 it ∧
    (∀ x p, x ∈ l1 → dst_of cwd c0 x = Ret d → get_priority idn x = Ret p →
            (p < priority e)%Z) ∧
    (∀ x p, x ∈ l2 → dst_of cwd c0 x = Ret d → get_priority idn x = Ret p →
            (p ≤ priority e)%Z).

Definition tracks (c0 : SymlinkContainer) (l : list SpecializedItem)
    (c : SymlinkContainer) : Prop :=
  ∀ d, match _container c !! d with
       | None => ∀ x, x ∈ l → dst_of cwd c0 x ≠ Ret d
       | Some e => selected c0 l d e
       end.

End add_notions.

Section walk_notions.
Context (idn : identity) (cwd : string) (ignored : string → bool).

(** The items that the loop of [main] hands to [add]: those of the files
    that are valid and whose name is not ignored, in the directories whose
    relative path is not ignored. *)
Definition accepted_in (root : string) (files : list string)
    (it : SpecializedItem) : Prop :=
  ∃ name, name ∈ files ∧ new_item root name = Ret it ∧
          is_valid idn it = Ret true ∧ ignored (filename it) = false.

Definition accepted (source_root : string)
    (walk : list (string * list string * list string))
    (it : SpecializedItem) : Prop :=
  ∃ root dirs files rel,
    (root, dirs, files) ∈ walk ∧
    posixpath.relpath cwd root source_root = Ret rel ∧ ignored rel = false ∧
    accepted_in root files it.

(** The directories that the loop of [main] collects: the destination of
    every walked directory that has no sub-directory and whose relative path
    is not ignored. *)
Definition leaf_directory (source_root destination_root : string)
    (walk : list (string * list string * list string)) (d : string) : Prop :=
  ∃ root files rel,
    (root, [], files) ∈ walk ∧
    posixpath.relpath cwd root source_root = Ret rel ∧ ignored rel = false ∧
    d = posixpath.abspath cwd (posixpath.join destination_root [rel]).

End walk_notions.

Module Patterns.
Import Re.

(** [SPECIAL_CHARS] of [sre_parse]. *)
Definition special : list ascii := chars ".\[{()*+?^$|".

Definition plain (c : ascii) : Prop := c ∉ special.

(** A run of literal items. *)
Definition lits (l : list ascii) : list regex := (fun c => One (CLit c)) <$> l.

(** [strip l s] removes the prefix [l] from [s]. *)
Fixpoint strip (l s : list ascii) : option (list ascii) :=
  match l, s with
  | [], _ => Some s
  | a :: l, b :: s => if bool_decide (b = a) then strip l s else None
  | _ :: _, [] => None
  end.

(** The patterns of [is_valid] and [get_priority] for an identity without
    special characters. *)
Definition valid_re (U H : list ascii) : regex :=
  Seq Bol
    (Seq (Group 1
            (Alt (seq_of (lits H))
               (seq_of (lits U ++
                  [Opt false (Group 2 (seq_of (lits ("@"%char :: H))))]))))
       (Seq Eol Eps)).

Definition priority_re (U H : list ascii) : regex :=
  Seq Bol
    (Seq (Group 1
            (Alt (seq_of (lits H))
               (Seq
                  (Group 2
                     (seq_of (lits U ++
                        [Opt false (Group 3 (seq_of (lits ("@"%char :: H))))])))
                  Eps)))
       (Seq Eol Eps)).

Definition plain_identity (idn : identity) : Prop :=
  Forall plain (chars (username idn)) ∧ Forall plain (chars (host idn)).

(** The groups set by a run of the two patterns on [q]. *)
Definition user_outcome (n : nat) (U H q : list ascii)
    (outer : list (nat * list ascii)) : option (list (nat * list ascii)) :=
  match strip U q with
  | Some r =>
      let short := if at_end r then Some ((n, U) :: outer) else None in
      match strip ("@"%char :: H) r with
      | Some r' =>
          if at_end r'
          then Some ((n, U ++ "@"%char :: H) :: (S n, "@"%char :: H) :: outer)
          else short
      | None => short
      end
  | None => None
  end.

Definition host_outcome (H q : list ascii) : option (list (nat * list ascii)) :=
  match strip H q with
  | Some r => if at_end r then Some [(1, H)] else None
  | None => None
  end.

(** The pattern of [_split_specialization]. *)
Definition qualifier_re : regex :=
  Group 2
    (Seq (One (CLit "<"))
       (Seq (Group 3 (Seq (Star true (CSet true ["<"%char])) Eps))
          (Seq (One (CLit ">")) (Seq Eol Eps)))).

Definition split_tail : regex := Seq (Opt false qualifier_re) (Seq Eol Eps).

Definition split_re : regex :=
  Seq Bol (Seq (Group 1 (Seq (Plus true CAny) Eps)) split_tail).

Definition angle : list ascii := ["<"; ">"]%char.

Definition newline_free (s : string) : Prop := newline ∉ chars s.

Definition truthy_count (gs : list (option string)) : nat :=
  List.length (filter (fun g => truthy g = true) gs).

End Patterns.

Global Instance plain_dec c : Decision (Patterns.plain c).
Proof. unfold Patterns.plain. apply _. Defined.

Global Instance plain_identity_dec idn : Decision (Patterns.plain_identity idn).
Proof. unfold Patterns.plain_identity. apply _. Defined.

Global Instance newline_free_dec s : Decision (Patterns.newline_free s).
Proof. unfold Patterns.newline_free. apply _. Defined.

(** A walk on which nothing raises: no directory has an empty path, no
    file an empty name or a newline in its name. *)
Definition well_named (walk : list (string * list string * list string)) : Prop :=
  Forall (fun '(root, _, files) =>
            root ≠ "" ∧ Forall (fun name => name ≠ "" ∧ Patterns.newline_free name) files)
    walk.

(** Concrete inputs used below. *)
Module Inputs.

Definition alice_box1 : identity := Identity "alice" "box1".
Definition alice_dotted : identity := Identity "alice" "box.local".
Definition star_host : identity := Identity "u" ".*".
Definition nullable_host : identity := Identity "alice" "a*".
Definition split_user : identity := Identity "a)|(b" "h".

Definition roots : SymlinkContainer := new_container "/src" "/out".
Definition never_ignored : string → bool := fun _ => false.

(** The file name [a], newline, [b]. *)
Definition two_lines : string := String "a" (String newline "b").

Definition config_host : SpecializedItem :=
  Item "config<box1>" "/src" (Some "config") (Some "box1").
Definition config_user : SpecializedItem :=
  Item "config<alice>" "/src" (Some "config") (Some "alice").
Definition config_full : SpecializedItem :=
  Item "config<alice@box1>" "/src" (Some "config") (Some "alice@box1").
Definition config_plain : SpecializedItem :=
  Item "config" "/src" (Some "config") None.
Definition config_empty : SpecializedItem :=
  Item "config<>" "/src" (Some "config") (Some "").

(** What [os.walk] yields for a directory with one sub-directory. *)
Definition dotfiles_walk : list (string * list string * list string) :=
  [("/src", ["vim"], ["bashrc"; "config<alice>"; "config<bob>"; "README"]);
   ("/src/vim", [], ["vimrc<box1>"; "vimrc"])].

Definition ignores_readme : string → bool := fun s => bool_decide (s = "README").

(** The container after that walk for [alice_box1]. *)
Definition dotfiles_links : SymlinkContainer :=
  Container
    (list_to_map [("/out/config", Entry "/src/config<alice>" 2%Z);
                  ("/out/vim/vimrc", Entry "/src/vim/vimrc<box1>" 1%Z);
                  ("/out/bashrc", Entry "/src/bashrc" 0%Z)])
    "/src" "/out".

(** A file system that only records the paths made. *)
Definition recording_os : os_calls (list string) :=
  OsCalls (list string)
    (fun w p => bool_decide (p ∈ w))
    (fun _ _ => false)
    (fun w p => Done (filter (fun x => x ≠ p) w))
    (fun w _ dst => if bool_decide (dst ∈ w) then Failed FileExistsError else Done (dst :: w))
    (fun w d => if bool_decide (d ∈ w) then Failed FileExistsError else Done (d :: w)).

(** The same, where every destination exists and [unlink] fails. *)
Definition no_unlink_os : os_calls (list string) :=
  OsCalls (list string)
    (fun _ _ => true)
    (fun _ _ => true)
    (fun _ _ => Failed OSError)
    (symlink recording_os)
    (makedirs recording_os).

Definition forced_args : arguments :=
  Arguments_ "/src" "/out" "alice" "box1" ".deployignore" false false true.

(** A [fnmatch] for patterns without wildcards. *)
Definition exact_fnmatch : string → string → bool :=
  fun name pat => bool_decide (name = pat).

End Inputs.

(** * Facts about [add] *)

Section add_facts.
Context (idn : identity) (cwd : string).

Lemma dst_of_roots c c' it :
  src_root c = src_root c' → dst_root c = dst_root c' →
  dst_of cwd c it = dst_of cwd c' it.
Proof. unfold dst_of. by intros -> ->. Qed.

Lemma src_of_roots c c' it :
  src_root c = src_root c' → src_of c it = src_of c' it.
Proof. unfold src_of. by intros ->. Qed.

Lemma add_put c it d p :
  dst_of cwd c it = Ret d → get_priority idn it = Ret p →
  add idn cwd c it
  = Ret (Container (put (_container c) d (src_of c it) p) (src_root c) (dst_root c)).
Proof.
  intros Hd Hp. unfold add, put. rewrite Hd, Hp. simpl.
  destruct (_container c !! d) as [e|]; [|done].
  case_bool_decide; [done|]. by destruct c.
Qed.

Lemma add_inv c it c' :
  add idn cwd c it = Ret c' →
  ∃ d p, dst_of cwd c it = Ret d ∧ get_priority idn it = Ret p ∧
         c' = Container (put (_container c) d (src_of c it) p)
                (src_root c) (dst_root c).
Proof.
  intros H.
  destruct (dst_of cwd c it) as [d|] eqn:Hd; [|by unfold add in H; rewrite Hd in H].
  destruct (get_priority idn it) as [p|] eqn:Hp;
    [|by unfold add in H; rewrite Hd, Hp in H].
  exists d, p. rewrite (add_put _ _ _ _ Hd Hp) in H. by simplify_eq.
Qed.

Lemma add_roots c it c' :
  add idn cwd c it = Ret c' → src_root c' = src_root c ∧ dst_root c' = dst_root c.
Proof. intros (d & p & _ & _ & ->)%add_inv. done. Qed.

Lemma add_all_app c l1 l2 :
  add_all idn cwd c (l1 ++ l2) = add_all idn cwd c l1 ≫= fun c' => add_all idn cwd c' l2.
Proof.
  revert c. induction l1 as [|x l1 IH]; intros c; [done|]. simpl.
  destruct (add idn cwd c x) as [c'|]; [apply IH | done].
Qed.

Lemma add_all_roots c l c' :
  add_all idn cwd c l = Ret c' → src_root c' = src_root c ∧ dst_root c' = dst_root c.
Proof.
  revert c. induction l as [|x l IH]; intros c H; simpl in H; [by simplify_eq|].
  destruct (add idn cwd c x) as [c1|] eqn:H1; [|done].
  apply IH in H as [-> ->]. by apply add_roots in H1.
Qed.

Lemma tracks_snoc c0 l c x c' :
  src_root c = src_root c0 → dst_root c = dst_root c0 →
  tracks idn cwd c0 l c → add idn cwd c x = Ret c' →
  tracks idn cwd c0 (l ++ [x]) c'.
Proof.
  intros Hs Hr Ht (dx & p & Hdx & Hp & ->)%add_inv d. simpl.
  rewrite (dst_of_roots c c0) in Hdx by done.
  rewrite (src_of_roots c c0) by done.
  specialize (Ht d). unfold put.
  destruct (decide (dx = d)) as [->|Hne].
  - destruct (_container c !! d) as [e|] eqn:He.
    + destruct Ht as (l1 & it & l2 & -> & Hd & Hpe & Hsrc & Hlt & Hle).
      case_bool_decide as Hlt'.
      * rewrite lookup_insert_eq. exists (l1 ++ it :: l2), x, []. simpl.
        split_and!; [done..| |intros ?? []%elem_of_nil].
        intros y q [Hy|Hy]%elem_of_app Hyd Hyq.
        { specialize (Hlt _ _ Hy Hyd Hyq). lia. }
        apply elem_of_cons in Hy as [->|Hy].
        { rewrite Hpe in Hyq. simplify_eq. lia. }
        specialize (Hle _ _ Hy Hyd Hyq). lia.
      * rewrite He. exists l1, it, (l2 ++ [x]).
        split_and!; [by rewrite <-app_assoc|done..|].
        intros y q [Hy|Hy]%elem_of_app Hyd Hyq; [by eapply Hle|].
        apply list_elem_of_singleton in Hy as ->.
        rewrite Hp in Hyq. simplify_eq. lia.
    + rewrite lookup_insert_eq. exists l, x, []. simpl.
      split_and!; [done..| |intros ?? []%elem_of_nil].
      intros y q Hy Hyd _. by destruct (Ht _ Hy).
  - assert (put (_container c) dx (src_of c0 x) p !! d = _container c !! d) as Hsame.
    { unfold put. destruct (_container c !! dx); [case_bool_decide|];
        by rewrite ?lookup_insert_ne. }
    unfold put in Hsame. rewrite Hsame.
    destruct (_container c !! d) as [e|].
    + destruct Ht as (l1 & it & l2 & -> & Hd & Hpe & Hsrc & Hlt & Hle).
      exists l1, it, (l2 ++ [x]).
      split_and!; [by rewrite <-app_assoc|done..|].
      intros y q [Hy|Hy]%elem_of_app Hyd Hyq; [by eapply Hle|].
      apply list_elem_of_singleton in Hy as ->. congruence.
    + intros y [Hy|Hy]%elem_of_app; [by apply Ht|].
      apply list_elem_of_singleton in Hy as ->. congruence.
Qed.

Lemma add_all_tracks c0 l c :
  _container c0 = ∅ → add_all idn cwd c0 l = Ret c → tracks idn cwd c0 l c.
Proof.
  intros Hemp. revert c. induction l as [|x l IH] using rev_ind; intros c H.
  - simpl in H. simplify_eq. intros d. rewrite Hemp, lookup_empty.
    intros ? []%elem_of_nil.
  - rewrite add_all_app in H.
    destruct (add_all idn cwd c0 l) as [c1|] eqn:H1; [|done]. simpl in H.
    destruct (add idn cwd c1 x) as [c2|] eqn:H2; [|done]. simpl in H. simplify_eq.
    destruct (add_all_roots _ _ _ H1) as [Hs Hr].
    apply (tracks_snoc c0 l c1 x c); [done|done|by apply IH|done].
Qed.

(** Every item of a sequence of calls that returned has a key and a
    priority. *)
Lemma add_all_defined c0 l c x :
  add_all idn cwd c0 l = Ret c → x ∈ l →
  ∃ d p, dst_of cwd c0 x = Ret d ∧ get_priority idn x = Ret p.
Proof.
  revert c0. induction l as [|y l IH]; intros c0 H Hx; [by apply elem_of_nil in Hx|].
  simpl in H. destruct (add idn cwd c0 y) as [c1|] eqn:H1; [|done].
  apply elem_of_cons in Hx as [->|Hx].
  - apply add_inv in H1 as (d & p & ? & ? & _). eauto.
  - destruct (IH _ H Hx) as (d & p & Hd & Hp).
    destruct (add_roots _ _ _ H1).
    exists d, p. by rewrite <-(dst_of_roots c1 c0).
Qed.

Lemma add_all_returns c0 l :
  (∀ x, x ∈ l → ∃ d p, dst_of cwd c0 x = Ret d ∧ get_priority idn x = Ret p) →
  returns (add_all idn cwd c0 l).
Proof.
  revert c0. induction l as [|y l IH]; intros c0 H; [by eexists|]. simpl.
  destruct (H y) as (d & p & Hd & Hp); [left|].
  rewrite (add_put _ _ _ _ Hd Hp). simpl. apply IH.
  intros x Hx. destruct (H x) as (d' & p' & Hd' & Hp'); [by right|].
  exists d', p'. by rewrite <-Hd'.
Qed.

End add_facts.

(** * Facts about the [re] fragment *)

Module ReFacts.
Import Re Patterns.

Lemma chars_app a b : chars (a +:+ b) = chars a ++ chars b.
Proof. induction a as [|c a IH]; simpl; [done|]. by rewrite <-IH. Qed.

Lemma chars_inj a b : chars a = chars b → a = b.
Proof.
  intros H. rewrite <-(string_of_list_ascii_of_string a),
    <-(string_of_list_ascii_of_string b). by rewrite H.
Qed.

Lemma strip_app l r : strip l (l ++ r) = Some r.
Proof. induction l as [|a l IH]; simpl; [done|]. by rewrite bool_decide_eq_true_2. Qed.

Lemma strip_Some l s r : strip l s = Some r → s = l ++ r.
Proof.
  revert s. induction l as [|a l IH]; intros [|b s] H; simpl in *; try congruence.
  case_bool_decide; [|done]. subst. f_equal. by apply IH.
Qed.

Lemma step_plain st c :
  ps_mode st = MNormal → plain c →
  step st c = Some (push_item (One (CLit c)) st).
Proof.
  intros Hm Hc. unfold step. rewrite Hm. unfold normal_step.
  unfold plain, special in Hc. rewrite list_elem_of_In in Hc. simpl in Hc.
  repeat (case_bool_decide as E;
          [exfalso; apply Hc; rewrite ?list_elem_of_In in E; simpl in E;
           intuition auto|clear E]).
  done.
Qed.

Lemma plain_not_question c : plain c → c ≠ "?"%char.
Proof. intros Hc ->. apply Hc. unfold special. simpl. set_solver. Qed.

Lemma steps_app st l1 l2 :
  steps st (l1 ++ l2) = steps st l1 ≫= fun st' => steps st' l2.
Proof.
  revert st. induction l1 as [|c l1 IH]; intros st; simpl; [done|].
  destruct (step st c); simpl; [apply IH|done].
Qed.

Lemma steps_plain l g alts items stack n names :
  Forall plain l →
  steps (PState MNormal (Frame g alts items) stack n names) l
  = Some (PState MNormal (Frame g alts (rev (lits l) ++ items)) stack n names).
Proof.
  intros Hl. revert items. induction Hl as [|c l Hc _ IH]; intros items; [done|].
  simpl. rewrite step_plain by done. simpl. unfold push_item. simpl.
  rewrite IH. by rewrite <-app_assoc.
Qed.

(** After ["("], text that does not start with ["?"] is read inside a new
    unnamed group. *)
Lemma steps_open f stack n names c l :
  c ≠ "?"%char →
  steps (PState MOpen f stack n names) (c :: l)
  = steps (open_group None (PState MOpen f stack n names)) (c :: l).
Proof.
  intros Hc. cbn [steps].
  assert (step (PState MOpen f stack n names) c
          = step (open_group None (PState MOpen f stack n names)) c) as ->; [|done].
  unfold step. simpl. by rewrite bool_decide_eq_false_2.
Qed.

Lemma steps_plain_app l r g alts items stack n names :
  Forall plain l →
  steps (PState MNormal (Frame g alts items) stack n names) (l ++ r)
  = steps (PState MNormal (Frame g alts (rev (lits l) ++ items)) stack n names) r.
Proof. intros Hl. rewrite steps_app, steps_plain by done. done. Qed.

Lemma steps_open_plain l c r f stack n names :
  Forall plain l → c ≠ "?"%char →
  steps (PState MOpen f stack n names) (l ++ c :: r)
  = steps (PState MNormal (Frame (S n) [] (rev (lits l))) (f :: stack) (S n) names)
      (c :: r).
Proof.
  intros Hl Hc. destruct l as [|a l]; simpl app.
  - by rewrite steps_open.
  - rewrite steps_open by (apply plain_not_question; by inversion Hl).
    unfold open_group. cbn [ps_count ps_cur ps_stack ps_names].
    change (a :: l ++ c :: r) with ((a :: l) ++ c :: r).
    rewrite (steps_plain_app (a :: l)) by done. by rewrite app_nil_r.
Qed.

Lemma compile_priority_matcher idn :
  plain_identity idn →
  compile (priority_matcher idn)
  = Ret (Pattern (priority_re (chars (username idn)) (chars (host idn))) 3 []).
Proof.
  intros [HU HH]. unfold compile, priority_matcher.
  rewrite !chars_app.
  set (U := chars (username idn)) in *. set (H := chars (host idn)) in *.
  simpl.
  rewrite steps_open_plain by done. simpl.
  rewrite steps_open_plain by done. simpl.
  unfold push_item, open_group. simpl.
  rewrite steps_plain_app by done. simpl.
  unfold push_item, frame_body. simpl.
  by rewrite !rev_app_distr, !rev_involutive.
Qed.

Lemma compile_valid_matcher idn :
  plain_identity idn →
  compile (valid_matcher idn)
  = Ret (Pattern (valid_re (chars (username idn)) (chars (host idn))) 2 []).
Proof.
  intros [HU HH]. unfold compile, valid_matcher.
  rewrite !chars_app.
  set (U := chars (username idn)) in *. set (H := chars (host idn)) in *.
  simpl.
  rewrite steps_open_plain by done. simpl.
  rewrite steps_plain_app by done. simpl.
  unfold push_item, open_group. simpl.
  rewrite steps_plain_app by done. simpl.
  unfold push_item, frame_body. simpl.
  by rewrite !rev_app_distr, !rev_involutive.
Qed.

Lemma m_lits l items k pos s caps :
  m (seq_of (lits l ++ items)) k (MState pos s caps)
  = match strip l s with
    | Some s' => m (seq_of items) k (MState (pos + List.length l) s' caps)
    | None => None
    end.
Proof.
  revert pos s. induction l as [|a l IH]; intros pos s; simpl.
  - by rewrite Nat.add_0_r.
  - unfold one. simpl. destruct s as [|b s]; [done|].
    case_bool_decide; [|done]. rewrite IH. by rewrite Nat.add_succ_r.
Qed.

Lemma m_lits_only l k pos s caps :
  m (seq_of (lits l)) k (MState pos s caps)
  = match strip l s with
    | Some s' => k (MState (pos + List.length l) s' caps)
    | None => None
    end.
Proof. rewrite <-(app_nil_r (lits l)). by rewrite m_lits. Qed.

Lemma take_exact n (l r : list ascii) : n = List.length l → take n (l ++ r) = l.
Proof. intros ->. by rewrite take_app_length. Qed.

Lemma take_exact2 n (l1 l2 r : list ascii) :
  n = List.length l1 + List.length l2 → take n (l1 ++ l2 ++ r) = l1 ++ l2.
Proof. intros ->. by rewrite app_assoc, <-length_app, take_app_length. Qed.

Lemma priority_run U H q :
  m_caps <$> m (priority_re U H) Some (MState 0 q [])
  = match host_outcome H q with
    | Some caps => Some caps
    | None =>
        (fun caps => match caps with
                     | (_, s) :: _ => (1, s) :: caps
                     | [] => []
                     end) <$> user_outcome 2 U H q []
    end.
Proof.
  unfold priority_re, host_outcome, user_outcome. cbn [m]. simpl bool_decide. cbn iota.
  rewrite m_lits_only. rewrite m_lits. cbn [seq_of foldr m].
  unfold close_group. cbn [m_pos m_rest m_caps].
  destruct (strip H q) as [r|] eqn:EH.
  - apply strip_Some in EH as ->. rewrite take_exact by lia.
    destruct (at_end r); [done|]. cbn iota.
    destruct (strip U (H ++ r)) as [r1|] eqn:EU; [|done].
    rewrite (strip_Some _ _ _ EU). rewrite m_lits_only. cbn [m_pos m_rest m_caps].
    destruct (strip ("@"%char :: H) r1) as [r2|] eqn:E2.
    + apply strip_Some in E2 as ->.
      rewrite (take_exact2 _ U ("@"%char :: H) r2) by (simpl; lia).
      rewrite (take_exact _ ("@"%char :: H) r2) by (simpl; lia).
      rewrite (take_exact _ U) by (simpl; lia).
      destruct (at_end r2); [done|]. by destruct (at_end _).
    + rewrite !take_exact by (simpl; lia). by destruct (at_end r1).
  - cbn iota. destruct (strip U q) as [r1|] eqn:EU; [|done].
    apply strip_Some in EU as ->. rewrite m_lits_only. cbn [m_pos m_rest m_caps].
    destruct (strip ("@"%char :: H) r1) as [r2|] eqn:E2.
    + apply strip_Some in E2 as ->.
      rewrite (take_exact2 _ U ("@"%char :: H) r2) by (simpl; lia).
      rewrite (take_exact _ ("@"%char :: H) r2) by (simpl; lia).
      rewrite (take_exact _ U) by (simpl; lia).
      destruct (at_end r2); [done|]. by destruct (at_end _).
    + rewrite !take_exact by (simpl; lia). by destruct (at_end r1).
Qed.

Lemma valid_run U H q :
  m_caps <$> m (valid_re U H) Some (MState 0 q [])
  = match host_outcome H q with
    | Some caps => Some caps
    | None => user_outcome 1 U H q []
    end.
Proof.
  unfold valid_re, host_outcome, user_outcome. cbn [m]. simpl bool_decide. cbn iota.
  rewrite m_lits_only. rewrite m_lits. cbn [seq_of foldr m].
  unfold close_group. cbn [m_pos m_rest m_caps].
  destruct (strip H q) as [r|] eqn:EH.
  - apply strip_Some in EH as ->. rewrite take_exact by lia.
    destruct (at_end r); [done|]. cbn iota.
    destruct (strip U (H ++ r)) as [r1|] eqn:EU; [|done].
    rewrite (strip_Some _ _ _ EU). rewrite m_lits_only. cbn [m_pos m_rest m_caps].
    destruct (strip ("@"%char :: H) r1) as [r2|] eqn:E2.
    + apply strip_Some in E2 as ->.
      rewrite (take_exact2 _ U ("@"%char :: H) r2) by (simpl; lia).
      rewrite (take_exact _ ("@"%char :: H) r2) by (simpl; lia).
      rewrite (take_exact _ U) by (simpl; lia).
      destruct (at_end r2); [done|]. by destruct (at_end _).
    + rewrite !take_exact by (simpl; lia). by destruct (at_end r1).
  - cbn iota. destruct (strip U q) as [r1|] eqn:EU; [|done].
    apply strip_Some in EU as ->. rewrite m_lits_only. cbn [m_pos m_rest m_caps].
    destruct (strip ("@"%char :: H) r1) as [r2|] eqn:E2.
    + apply strip_Some in E2 as ->.
      rewrite (take_exact2 _ U ("@"%char :: H) r2) by (simpl; lia).
      rewrite (take_exact _ ("@"%char :: H) r2) by (simpl; lia).
      rewrite (take_exact _ U) by (simpl; lia).
      destruct (at_end r2); [done|]. by destruct (at_end _).
    + rewrite !take_exact by (simpl; lia). by destruct (at_end r1).
Qed.

(** *** The pattern of [_split_specialization] *)

Lemma compile_expression_matcher :
  compile expression_matcher
  = Ret (Pattern split_re 3 [("specialization", 3); ("name", 1)]).
Proof. reflexivity. Qed.

Lemma star_lazy_skip c k l r pos caps :
  Forall (fun x => cls_match c x = true) l →
  (∀ i, i < List.length l → k (MState (pos + i) (drop i l ++ r) caps) = None) →
  star_lazy c k pos caps (l ++ r) = star_lazy c k (pos + List.length l) caps r.
Proof.
  intros Hl. revert pos. induction Hl as [|x l Hx _ IH]; intros pos Hk.
  - simpl. by rewrite Nat.add_0_r.
  - simpl. rewrite Hx.
    specialize (Hk 0 ltac:(simpl; lia)) as Hk0. rewrite Nat.add_0_r in Hk0.
    simpl in Hk0. rewrite Hk0.
    rewrite IH; [by rewrite Nat.add_succ_r|].
    intros i Hi. specialize (Hk (S i) ltac:(simpl; lia)).
    by rewrite Nat.add_succ_r in Hk.
Qed.

Lemma star_lazy_blocked c k l x r pos caps :
  cls_match c x = false →
  (∀ i, (i ≤ List.length l)%nat →
        k (MState (pos + i) (drop i l ++ x :: r) caps) = None) →
  star_lazy c k pos caps (l ++ x :: r) = None.
Proof.
  intros Hx. revert pos. induction l as [|y l IH]; intros pos Hk.
  - simpl. specialize (Hk 0 ltac:(simpl; lia)). rewrite Nat.add_0_r in Hk.
    simpl in Hk. by rewrite Hk, Hx.
  - simpl. specialize (Hk 0 ltac:(simpl; lia)) as Hk0. rewrite Nat.add_0_r in Hk0.
    simpl in Hk0. rewrite Hk0. destruct (cls_match c y); [|done].
    apply IH. intros i Hi. specialize (Hk (S i) ltac:(simpl; lia)).
    by rewrite Nat.add_succ_r in Hk.
Qed.

Lemma at_end_angle u : at_end (u ++ angle) = false.
Proof. by destruct u as [|a [|b u]]. Qed.

Lemma close_tail_fails k u pos caps :
  m (Seq (One (CLit ">")) (Seq Eol Eps)) k (MState pos (u ++ angle) caps) = None.
Proof.
  cbn [m]. unfold one. destruct u as [|h u]; [done|]. simpl.
  case_bool_decide; [|done]. by rewrite at_end_angle.
Qed.

Lemma group3_fails k u pos caps :
  m (Seq (Group 3 (Seq (Star true (CSet true ["<"%char])) Eps))
       (Seq (One (CLit ">")) (Seq Eol Eps))) k (MState pos (u ++ angle) caps) = None.
Proof.
  cbn [m]. unfold star. cbn [m_pos m_rest m_caps].
  apply (star_lazy_blocked _ _ u "<"%char [">"%char]); [done|].
  intros i _. unfold close_group. cbn [m_pos m_rest m_caps one].
  apply (close_tail_fails k (drop i u)).
Qed.

Lemma qualifier_fails k u pos caps :
  u ≠ [] → m qualifier_re k (MState pos (u ++ angle) caps) = None.
Proof.
  intros Hu. destruct u as [|h u]; [done|].
  unfold qualifier_re. cbn [m]. unfold one at 1. cbn [m_rest app].
  destruct (cls_match _ h); [|done].
  apply (group3_fails _ u).
Qed.

Lemma split_tail_fails u pos caps :
  u ≠ [] → m split_tail Some (MState pos (u ++ angle) caps) = None.
Proof.
  intros Hu. unfold split_tail. cbn [m]. rewrite qualifier_fails by done.
  cbn [m_rest]. by rewrite at_end_angle.
Qed.

Lemma split_run c name :
  Forall (fun x => x ≠ newline) (c :: name) →
  m_caps <$> m split_re Some (MState 0 ((c :: name) ++ angle) [])
  = Some [(2, angle); (3, []); (1, c :: name)].
Proof.
  intros Hn. unfold split_re. cbn [m]. simpl bool_decide. cbn iota.
  unfold one at 1. cbn [m_rest app m_pos m_caps].
  assert (cls_match CAny c = true) as ->.
  { simpl. apply Forall_cons_1 in Hn as [Hc _]. by rewrite bool_decide_eq_false_2. }
  unfold star. cbn [m_pos m_rest m_caps].
  rewrite star_lazy_skip.
  - simpl. unfold close_group. simpl.
    replace (S (S (List.length name)) - List.length name) with 2 by lia.
    by rewrite Nat.sub_diag, take_app_length.
  - apply Forall_cons_1 in Hn as [_ Hn].
    eapply Forall_impl; [exact Hn|]. intros x Hx. simpl.
    by rewrite bool_decide_eq_false_2.
  - intros i Hi. unfold close_group. cbn [m_pos m_rest m_caps].
    apply split_tail_fails.
    intros Hd. apply (f_equal List.length) in Hd.
    rewrite length_drop in Hd. simpl in Hd. lia.
Qed.

(** *** Subjects without a newline *)

Lemma at_end_no_newline r : newline ∉ r → at_end r = bool_decide (r = []).
Proof.
  intros Hr. destruct r as [|a [|b r]]; [done| |done]. simpl.
  apply bool_decide_eq_false_2. intros ->. apply Hr. by left.
Qed.

Lemma strip_None l s r : strip l s = None → s ≠ l ++ r.
Proof. intros H ->. by rewrite strip_app in H. Qed.

Lemma app_eq_self_l (l r : list ascii) : l ++ r = l → r = [].
Proof. intros H. apply (app_inv_head l). by rewrite app_nil_r. Qed.

Lemma host_outcome_no_newline H q :
  newline ∉ q →
  host_outcome H q = if bool_decide (q = H) then Some [(1, H)] else None.
Proof.
  intros Hq. unfold host_outcome. destruct (strip H q) as [r|] eqn:E.
  - apply strip_Some in E as ->.
    rewrite at_end_no_newline by (intros ?; apply Hq; set_solver).
    destruct r as [|a r]; simpl.
    + by rewrite app_nil_r, bool_decide_eq_true_2.
    + rewrite bool_decide_eq_false_2; [done|]. by intros ?%app_eq_self_l.
  - rewrite bool_decide_eq_false_2; [done|].
    intros ->. apply (strip_None _ _ []) in E. by rewrite app_nil_r in E.
Qed.

Lemma user_outcome_no_newline n U H q outer :
  newline ∉ q →
  user_outcome n U H q outer
  = if bool_decide (q = U ++ "@"%char :: H)
    then Some ((n, U ++ "@"%char :: H) :: (S n, "@"%char :: H) :: outer)
    else if bool_decide (q = U) then Some ((n, U) :: outer) else None.
Proof.
  intros Hq. unfold user_outcome. destruct (strip U q) as [r|] eqn:E.
  - apply strip_Some in E as ->.
    rewrite (at_end_no_newline r) by (intros ?; apply Hq; set_solver).
    destruct (strip ("@"%char :: H) r) as [r'|] eqn:E'.
    + apply strip_Some in E' as ->.
      rewrite at_end_no_newline by (intros ?; apply Hq; set_solver).
      destruct r' as [|a r']; simpl.
      * by rewrite app_nil_r, bool_decide_eq_true_2.
      * rewrite bool_decide_eq_false_2.
        2:{ intros E%app_inv_head. injection E as E. by apply app_eq_self_l in E. }
        rewrite bool_decide_eq_false_2; [done|]. by intros ?%app_eq_self_l.
    + rewrite (bool_decide_eq_false_2 (U ++ r = U ++ "@"%char :: H)).
      2:{ intros E%app_inv_head. subst r. apply (strip_None _ _ []) in E'.
          by rewrite app_nil_r in E'. }
      destruct r as [|a r]; simpl.
      * by rewrite app_nil_r, bool_decide_eq_true_2.
      * rewrite bool_decide_eq_false_2; [done|]. by intros ?%app_eq_self_l.
  - rewrite !bool_decide_eq_false_2; [done| |].
    + intros ->. apply (strip_None _ _ []) in E. by rewrite app_nil_r in E.
    + intros ->. by rewrite strip_app in E.
Qed.

End ReFacts.

(** * Facts about [SpecializedItem] *)

Section item_facts.
Import Re Patterns ReFacts.

Lemma match_opt_Some p pat q :
  compile p = Ret pat →
  match_opt p (Some q)
  = Ret (match_of pat <$> m (p_re pat) Some (MState 0 (chars q) [])).
Proof. intros H. unfold match_opt. by rewrite H. Qed.

Lemma chars_user_at_host idn :
  chars (username idn +:+ "@" +:+ host idn)
  = chars (username idn) ++ "@"%char :: chars (host idn).
Proof. by rewrite !chars_app. Qed.

Lemma truthy_str s : s ≠ "" → truthy (Some (str (chars s))) = true.
Proof.
  intros Hs. unfold truthy. rewrite string_of_list_ascii_of_string.
  by rewrite bool_decide_eq_false_2.
Qed.

Lemma truthy_count_true g gs :
  truthy g = true → truthy_count (g :: gs) = S (truthy_count gs).
Proof. intros H. unfold truthy_count. by rewrite filter_cons_True. Qed.

Lemma truthy_count_false g gs :
  truthy g = false → truthy_count (g :: gs) = truthy_count gs.
Proof. intros H. unfold truthy_count. rewrite filter_cons_False; [done|congruence]. Qed.

Lemma truthy_cons a l : truthy (Some (str (a :: l))) = true.
Proof. done. Qed.

Variable idn : identity.
Hypothesis idn_plain : plain_identity idn.

Lemma get_priority_plain it q :
  username idn ≠ "" → host idn ≠ "" →
  _specialization it = Some q → q ≠ "" → newline_free q →
  get_priority idn it
  = Ret (if bool_decide (q = host idn) then 1
         else if bool_decide (q = username idn +:+ "@" +:+ host idn) then 3
         else if bool_decide (q = username idn) then 2
         else -1)%Z.
Proof.
  intros HU HH Hq Hne Hnl. unfold get_priority. rewrite Hq.
  unfold truthy at 1. rewrite bool_decide_eq_false_2 by done. simpl negb. cbn iota.
  rewrite (match_opt_Some _ _ _ (compile_priority_matcher idn idn_plain)).
  cbn [mbind res_bind p_re].
  pose proof (priority_run (chars (username idn)) (chars (host idn)) (chars q)) as Hrun.
  rewrite host_outcome_no_newline, user_outcome_no_newline in Hrun by done.
  rewrite <-chars_user_at_host in Hrun.
  rewrite (bool_decide_ext (chars q = chars (host idn)) (q = host idn)) in Hrun
    by (split; [apply chars_inj|congruence]).
  rewrite (bool_decide_ext (chars q = chars (username idn)) (q = username idn)) in Hrun
    by (split; [apply chars_inj|congruence]).
  rewrite (bool_decide_ext (chars q = chars (username idn +:+ "@" +:+ host idn))
             (q = username idn +:+ "@" +:+ host idn)) in Hrun
    by (split; [apply chars_inj|congruence]).
  destruct (m _ Some _) as [st|]; cbn [fmap option_fmap option_map] in *.
  - unfold match_of. cbn [mo_groups p_groups seq fmap list_fmap].
    fold (truthy_count [cap 1 (m_caps st); cap 2 (m_caps st); cap 3 (m_caps st)]).
    repeat case_bool_decide; cbn [fmap option_fmap option_map] in Hrun;
      [injection Hrun as Hrun; rewrite Hrun; subst q; simpl cap..|done].
    + rewrite truthy_count_true by (by apply truthy_str).
      by rewrite !truthy_count_false.
    + rewrite !truthy_count_true by (by apply truthy_str || apply truthy_cons). done.
    + rewrite !truthy_count_true by (by apply truthy_str).
      by rewrite !truthy_count_false.
  - by repeat case_bool_decide.
Qed.

Lemma is_valid_plain it q :
  _specialization it = Some q → newline_free q →
  is_valid idn it
  = Ret (bool_decide (q = host idn ∨ q = username idn
                      ∨ q = username idn +:+ "@" +:+ host idn)).
Proof.
  intros Hq Hnl. unfold is_valid. rewrite Hq.
  rewrite (bool_decide_eq_false_2 (Some q = None)) by done.
  rewrite andb_false_r.
  rewrite (match_opt_Some _ _ _ (compile_valid_matcher idn idn_plain)).
  cbn [mbind res_bind p_re]. f_equal.
  pose proof (valid_run (chars (username idn)) (chars (host idn)) (chars q)) as Hrun.
  rewrite host_outcome_no_newline, user_outcome_no_newline in Hrun by done.
  rewrite <-chars_user_at_host in Hrun.
  rewrite (bool_decide_ext (chars q = chars (host idn)) (q = host idn)) in Hrun
    by (split; [apply chars_inj|congruence]).
  rewrite (bool_decide_ext (chars q = chars (username idn)) (q = username idn)) in Hrun
    by (split; [apply chars_inj|congruence]).
  rewrite (bool_decide_ext (chars q = chars (username idn +:+ "@" +:+ host idn))
             (q = username idn +:+ "@" +:+ host idn)) in Hrun
    by (split; [apply chars_inj|congruence]).
  destruct (m _ Some _) as [st|]; cbn [fmap option_fmap option_map] in *.
  - rewrite bool_decide_eq_true_2 by done. symmetry. apply bool_decide_eq_true_2.
    repeat case_bool_decide; simplify_eq; auto.
  - rewrite bool_decide_eq_false_2 by (intros []; done). symmetry.
    apply bool_decide_eq_false_2.
    repeat case_bool_decide; simplify_eq. by intros [|[|]].
Qed.

End item_facts.


(** * The container after a sequence of [add] calls *)

Section container_claims.
Import Inputs.
Context (idn : identity) (cwd : string).

Lemma selected_in c0 l d e :
  selected idn cwd c0 l d e →
  ∃ it, it ∈ l ∧ dst_of cwd c0 it = Ret d ∧ get_priority idn it = Ret (priority e) ∧
        source e = src_of c0 it ∧
        ∀ x p, x ∈ l → dst_of cwd c0 x = Ret d → get_priority idn x = Ret p →
               (p ≤ priority e)%Z.
Proof.
  intros (l1 & it & l2 & -> & Hd & Hp & Hs & Hlt & Hle). exists it.
  split_and!; [set_solver|done..|].
  intros x p [Hx|[->|Hx]%elem_of_cons]%elem_of_app Hxd Hxp.
  - specialize (Hlt _ _ Hx Hxd Hxp). lia.
  - rewrite Hp in Hxp. simplify_eq. lia.
  - by eapply Hle.
Qed.

Lemma items_NoDup c : NoDup (items c).*2.
Proof.
  unfold items.
  assert (∀ l : list (string * entry),
            ((fun '(key, value) => (source value, key)) <$> l).*2 = l.*1) as ->.
  { induction l as [|[k v] l IH]; [done|]. rewrite !fmap_cons. by f_equal. }
  apply NoDup_fst_map_to_list.
Qed.

(** C3. After the calls [add] for the items of [l] on a new container,
    the dict has one entry per key (the pairs it yields have pairwise
    different destinations); a key no item of [l] maps to has no entry; the
    entry [e] of a key [d] comes from an item of [l] that maps to [d], whose
    priority no item of [l] for [d] exceeds, and which is the first such item
    of [l] (every earlier item for [d] has a strictly smaller priority): this
    is [selected]. A further [add] for an item of key [d] and priority [p]
    replaces the entry [e] of [d] when [priority e < p] and leaves the
    container as it is when [p <= priority e], equality included. *)
Theorem add_all_keeps_first_maximum sr dr l c :
  add_all idn cwd (new_container sr dr) l = Ret c →
  NoDup (items c).*2 ∧
  (∀ d, match _container c !! d with
        | None => ∀ x, x ∈ l → dst_of cwd (new_container sr dr) x ≠ Ret d
        | Some e => selected idn cwd (new_container sr dr) l d e
        end) ∧
  (∀ it d p e,
     dst_of cwd c it = Ret d → get_priority idn it = Ret p →
     _container c !! d = Some e →
     ((priority e < p)%Z →
      add idn cwd c it
      = Ret (Container (<[d := Entry (src_of c it) p]> (_container c))
               (src_root c) (dst_root c))) ∧
     ((p ≤ priority e)%Z → add idn cwd c it = Ret c)).
Proof.
  intros H. split_and!.
  - apply items_NoDup.
  - by apply (add_all_tracks idn cwd).
  - intros it d p e Hd Hp He. rewrite (add_put _ _ _ _ _ _ Hd Hp).
    unfold put. rewrite He. split; intros Hlt.
    + by rewrite bool_decide_eq_true_2.
    + rewrite bool_decide_eq_false_2 by lia. by destruct c.
Qed.

(** C8. If the calls [add] for the candidates of [l] return, and no two
    different candidates of [l] have the same key and the same priority,
    then for every permutation [l'] of [l] the calls return as well and
    leave the same container, hence the same destination to source
    mapping. *)
Theorem add_all_permutation sr dr l l' c :
  add_all idn cwd (new_container sr dr) l = Ret c →
  l ≡ₚ l' →
  (∀ x y, x ∈ l → y ∈ l →
          dst_of cwd (new_container sr dr) x = dst_of cwd (new_container sr dr) y →
          get_priority idn x = get_priority idn y → x = y) →
  add_all idn cwd (new_container sr dr) l' = Ret c.
Proof.
  intros H Hperm Htie. set (c0 := new_container sr dr) in *.
  destruct (add_all_returns idn cwd c0 l') as [c' H'].
  { intros x Hx. eapply add_all_defined; [exact H|]. by rewrite Hperm. }
  rewrite H'. f_equal.
  destruct (add_all_roots _ _ _ _ _ H) as [Hs Hr].
  destruct (add_all_roots _ _ _ _ _ H') as [Hs' Hr'].
  pose proof (add_all_tracks idn cwd c0 l c eq_refl H) as Ht.
  pose proof (add_all_tracks idn cwd c0 l' c' eq_refl H') as Ht'.
  assert (_container c' = _container c) as Hm.
  { apply map_eq. intros d. specialize (Ht d). specialize (Ht' d).
    destruct (_container c !! d) as [e|] eqn:He,
             (_container c' !! d) as [e'|] eqn:He'; [| | |done].
    - apply selected_in in Ht as (it & Hit & Hd & Hp & Hsrc & Hmax).
      apply selected_in in Ht' as (it' & Hit' & Hd' & Hp' & Hsrc' & Hmax').
      rewrite <-Hperm in Hit'.
      assert (priority e = priority e') as Hpp.
      { specialize (Hmax _ _ Hit' Hd' Hp').
        assert (it ∈ l') as Hit2 by (by rewrite <-Hperm).
        specialize (Hmax' _ _ Hit2 Hd Hp). lia. }
      assert (it = it') as <-.
      { apply Htie; [done..|congruence|congruence]. }
      f_equal. destruct e, e'. simpl in *. congruence.
    - apply selected_in in Ht as (it & Hit & Hd & _).
      rewrite Hperm in Hit. by destruct (Ht' _ Hit).
    - apply selected_in in Ht' as (it & Hit & Hd & _).
      rewrite <-Hperm in Hit. by destruct (Ht _ Hit). }
  destruct c, c'. simpl in *. congruence.
Qed.

(** C9. If [add] of an item on a container returns [c1], a second [add] of
    the same item on [c1] returns [c1] again: the entry it finds has its own
    priority, which is not strictly smaller. *)
Theorem add_idempotent c it c1 :
  add idn cwd c it = Ret c1 → add idn cwd c1 it = Ret c1.
Proof.
  intros (d & p & Hd & Hp & ->)%add_inv.
  set (c1 := Container _ _ _).
  assert (dst_of cwd c1 it = Ret d) as Hd1 by (by rewrite <-Hd).
  rewrite (add_put _ _ _ _ _ _ Hd1 Hp). f_equal. subst c1. simpl. f_equal.
  unfold put. destruct (_container c !! d) as [e|] eqn:He.
  - case_bool_decide.
    + rewrite lookup_insert_eq. simpl. by rewrite bool_decide_eq_false_2 by lia.
    + rewrite He. by rewrite bool_decide_eq_false_2.
  - rewrite lookup_insert_eq. simpl. by rewrite bool_decide_eq_false_2 by lia.
Qed.

End container_claims.

Section container_witnesses.
Import Inputs.

Lemma add_all_keeps_first_maximum_witness :
  let l := [config_host; config_user; config_plain; config_full; config_user] in
  let c := Container {["/out/config" := Entry "/src/config<alice@box1>" 3%Z]}
             "/src" "/out" in
  add_all alice_box1 "/" roots l = Ret c ∧
  NoDup (items c).*2 ∧
  (∀ d, match _container c !! d with
        | None => ∀ x, x ∈ l → dst_of "/" roots x ≠ Ret d
        | Some e => selected alice_box1 "/" roots l d e
        end) ∧
  (∀ it d p e,
     dst_of "/" c it = Ret d → get_priority alice_box1 it = Ret p →
     _container c !! d = Some e →
     ((priority e < p)%Z →
      add alice_box1 "/" c it
      = Ret (Container (<[d := Entry (src_of c it) p]> (_container c))
               (src_root c) (dst_root c))) ∧
     ((p ≤ priority e)%Z → add alice_box1 "/" c it = Ret c)).
Proof.
  split; [vm_compute; reflexivity|].
  apply (add_all_keeps_first_maximum alice_box1 "/" "/src" "/out").
  vm_compute; reflexivity.
Defined.

Lemma add_all_permutation_witness :
  let l := [config_host; config_full; config_plain] in
  let l' := [config_plain; config_full; config_host] in
  let c := Container {["/out/config" := Entry "/src/config<alice@box1>" 3%Z]}
             "/src" "/out" in
  add_all alice_box1 "/" roots l = Ret c ∧
  l ≡ₚ l' ∧
  (∀ x y, x ∈ l → y ∈ l → dst_of "/" roots x = dst_of "/" roots y →
          get_priority alice_box1 x = get_priority alice_box1 y → x = y) ∧
  add_all alice_box1 "/" roots l' = Ret c.
Proof.
  assert (∀ x y, x ∈ [config_host; config_full; config_plain] →
                 y ∈ [config_host; config_full; config_plain] →
                 dst_of "/" roots x = dst_of "/" roots y →
                 get_priority alice_box1 x = get_priority alice_box1 y → x = y) as Htie.
  { intros x y Hx Hy _ Hp.
    rewrite !elem_of_cons, elem_of_nil in Hx, Hy.
    destruct Hx as [->|[->|[->|[]]]], Hy as [->|[->|[->|[]]]];
      try reflexivity; vm_compute in Hp; discriminate Hp. }
  split_and!; [vm_compute; reflexivity|exact (Permutation_rev _)|exact Htie|].
  apply (add_all_permutation alice_box1 "/" "/src" "/out"
           [config_host; config_full; config_plain]);
    [vm_compute; reflexivity|exact (Permutation_rev _)|exact Htie].
Defined.

Lemma add_idempotent_witness :
  let c1 := Container {["/out/config" := Entry "/src/config<alice>" 2%Z]}
              "/src" "/out" in
  add alice_box1 "/" roots config_user = Ret c1 ∧
  add alice_box1 "/" c1 config_user = Ret c1.
Proof.
  split; [vm_compute; reflexivity|].
  apply (add_idempotent alice_box1 "/" roots); vm_compute; reflexivity.
Defined.

End container_witnesses.

(** * Scores and validity of qualifiers *)

Section qualifier_claims.
Import Re Patterns ReFacts Inputs.

Lemma user_at_host_ne_host idn : username idn +:+ "@" +:+ host idn ≠ host idn.
Proof.
  intros H%(f_equal chars). rewrite chars_user_at_host in H.
  apply (f_equal List.length) in H. rewrite length_app in H. simpl in H. lia.
Qed.

Lemma user_at_host_ne_user idn : username idn +:+ "@" +:+ host idn ≠ username idn.
Proof.
  intros H%(f_equal chars). rewrite chars_user_at_host in H.
  apply (f_equal List.length) in H. rewrite length_app in H. simpl in H. lia.
Qed.

Lemma user_at_host_ne_empty idn : username idn +:+ "@" +:+ host idn ≠ "".
Proof.
  intros H%(f_equal chars). rewrite chars_user_at_host in H.
  by destruct (chars (username idn)).
Qed.

Lemma user_at_host_newline_free idn :
  newline_free (username idn) → newline_free (host idn) →
  newline_free (username idn +:+ "@" +:+ host idn).
Proof.
  unfold newline_free. rewrite chars_user_at_host.
  intros HU HH [?|[?|?]%elem_of_cons]%elem_of_app; done.
Qed.

(** C1, as stated, does not hold: for the identity alice on box1 a
    qualifier equal to the username scores 2, not 1. *)
Lemma priority_scores_counterexample :
  ¬ (∀ idn it,
       username idn ≠ "" → host idn ≠ "" → username idn ≠ host idn →
       (_specialization it = None → get_priority idn it = Ret 0%Z) ∧
       (_specialization it = Some (host idn) → get_priority idn it = Ret 1%Z) ∧
       (_specialization it = Some (username idn) → get_priority idn it = Ret 1%Z) ∧
       (_specialization it = Some (username idn +:+ "@" +:+ host idn) →
        get_priority idn it = Ret 2%Z) ∧
       (∀ q, _specialization it = Some q →
             q ≠ host idn → q ≠ username idn →
             q ≠ username idn +:+ "@" +:+ host idn →
             get_priority idn it = Ret (-1)%Z)).
Proof.
  intros H.
  destruct (H alice_box1 config_user) as (_ & _ & Huser & _); [done..|].
  specialize (Huser eq_refl). vm_compute in Huser. discriminate.
Qed.

(** The other points on which the code departs from C1 as stated. *)
Lemma priority_user_at_host_scores_three :
  get_priority alice_box1 config_full = Ret 3%Z.
Proof. vm_compute; reflexivity. Qed.

Lemma priority_empty_qualifier_scores_zero :
  get_priority alice_box1 config_empty = Ret 0%Z.
Proof. vm_compute; reflexivity. Qed.

Lemma priority_pattern_host_scores_other_qualifier :
  get_priority alice_dotted
    (Item "config<boxXlocal>" "/src" (Some "config") (Some "boxXlocal")) = Ret 1%Z.
Proof. vm_compute; reflexivity. Qed.

Lemma priority_trailing_newline_scores_host :
  get_priority alice_box1
    (Item "config" "/src" (Some "config") (Some ("box1" +:+ String newline "")))
  = Ret 1%Z.
Proof. vm_compute; reflexivity. Qed.

Lemma priority_newline_username_scores_host :
  get_priority (Identity ("box1" +:+ String newline "") "box1")
    (Item "config" "/src" (Some "config") (Some ("box1" +:+ String newline "")))
  = Ret 1%Z.
Proof. vm_compute; reflexivity. Qed.

(** C1, amended. For an identity whose username and host are non-empty,
    different, and free of special characters of [re] and of newlines, the
    priority is 0 when the qualifier is absent or empty, 1 when it is the
    host, 2 when it is the username, 3 when it is username@host, and -1 for
    every other non-empty qualifier without a newline. *)
Theorem priority_scores idn f d dest :
  plain_identity idn →
  newline_free (username idn) → newline_free (host idn) →
  username idn ≠ "" → host idn ≠ "" → username idn ≠ host idn →
  get_priority idn (Item f d dest None) = Ret 0%Z ∧
  get_priority idn (Item f d dest (Some "")) = Ret 0%Z ∧
  get_priority idn (Item f d dest (Some (host idn))) = Ret 1%Z ∧
  get_priority idn (Item f d dest (Some (username idn))) = Ret 2%Z ∧
  get_priority idn (Item f d dest (Some (username idn +:+ "@" +:+ host idn)))
  = Ret 3%Z ∧
  (∀ q, q ≠ "" → newline_free q →
        q ≠ host idn → q ≠ username idn →
        q ≠ username idn +:+ "@" +:+ host idn →
        get_priority idn (Item f d dest (Some q)) = Ret (-1)%Z).
Proof.
  intros Hplain HnU HnH HU HH Hne.
  pose proof (user_at_host_ne_host idn). pose proof (user_at_host_ne_user idn).
  split_and!; [done|done|..].
  - rewrite (get_priority_plain idn Hplain _ (host idn)) by done.
    by rewrite bool_decide_eq_true_2.
  - rewrite (get_priority_plain idn Hplain _ (username idn)) by done.
    rewrite (bool_decide_eq_false_2 (username idn = host idn)) by done.
    rewrite (bool_decide_eq_false_2 (username idn = _ +:+ _)) by done.
    by rewrite bool_decide_eq_true_2.
  - rewrite (get_priority_plain idn Hplain _ (username idn +:+ "@" +:+ host idn));
      [|done|done|done|apply user_at_host_ne_empty
       |by apply user_at_host_newline_free].
    rewrite (bool_decide_eq_false_2 (_ = host idn)) by done.
    by rewrite bool_decide_eq_true_2.
  - intros q Hq Hnl H1 H2 H3.
    rewrite (get_priority_plain idn Hplain _ q) by done.
    by rewrite !bool_decide_eq_false_2.
Qed.

Lemma priority_scores_witness :
  let idn := alice_box1 in
  let score q := get_priority idn (Item "config" "/src" (Some "config") q) in
  (plain_identity idn ∧ newline_free (username idn) ∧ newline_free (host idn) ∧
   username idn ≠ "" ∧ host idn ≠ "" ∧ username idn ≠ host idn) ∧
  score None = Ret 0%Z ∧
  score (Some "") = Ret 0%Z ∧
  score (Some "box1") = Ret 1%Z ∧
  score (Some "alice") = Ret 2%Z ∧
  score (Some "alice@box1") = Ret 3%Z ∧
  (∀ q, q ≠ "" → newline_free q →
        q ≠ "box1" → q ≠ "alice" → q ≠ "alice@box1" → score (Some q) = Ret (-1)%Z).
Proof.
  split; [split_and!; compute_done|].
  apply (priority_scores alice_box1 "config" "/src" (Some "config")); compute_done.
Defined.

End qualifier_claims.

(** * File names *)

Section filename_claims.
Import Re Patterns ReFacts Inputs.

Lemma new_item_empty_qualifier d name :
  name ≠ "" → newline_free name →
  new_item d (name +:+ "<>") = Ret (Item (name +:+ "<>") d (Some name) (Some "")).
Proof.
  intros Hne Hnl. unfold new_item, _split_specialization, match_. cbn [filename directory].
  rewrite compile_expression_matcher. cbn [mbind res_bind p_re].
  rewrite chars_app. change (chars "<>") with angle.
  destruct (chars name) as [|c n] eqn:Hn.
  { destruct name; simplify_eq. }
  assert (Forall (fun x => x ≠ newline) (c :: n)) as Hall.
  { rewrite <-Hn. apply Forall_forall. intros x Hx ->. by apply Hnl. }
  pose proof (split_run c n Hall) as Hrun.
  destruct (m split_re Some _) as [st|]; cbn [fmap option_fmap option_map] in *;
    [|done].
  injection Hrun as Hcaps.
  unfold match_of. cbn [mo_groupdict p_names fmap list_fmap getitem].
  rewrite Hcaps, <-Hn. simpl.
  by rewrite string_of_list_ascii_of_string.
Qed.

(** C10, as stated, does not hold for every base name and identity: the
    file name ["<>"] parses without a qualifier, a base name with an inner
    newline does not parse, and for the host pattern [a*] the empty
    qualifier is valid. *)
Lemma empty_qualifier_counterexample :
  new_item "/src" ("" +:+ "<>") = Ret (Item "<>" "/src" (Some "<>") None) ∧
  new_item "/src" (two_lines +:+ "<>")
  = Ret (Item (two_lines +:+ "<>") "/src" None None) ∧
  (new_item "/src" ("f" +:+ "<>") = Ret (Item "f<>" "/src" (Some "f") (Some "")) ∧
   is_valid nullable_host (Item "f<>" "/src" (Some "f") (Some "")) = Ret true).
Proof. split_and!; vm_compute; reflexivity. Qed.

(** C10, amended. For a non-empty base name without a newline, the file
    name made of the base name followed by [<>] parses into that base name
    and the empty qualifier; for an identity whose username and host are
    non-empty and free of special characters of [re], the item is not
    valid, and its priority is 0. *)
Theorem empty_qualifier idn d name :
  name ≠ "" → newline_free name →
  plain_identity idn → username idn ≠ "" → host idn ≠ "" →
  ∃ it, new_item d (name +:+ "<>") = Ret it ∧
        destination it = Some name ∧
        _specialization it = Some "" ∧
        is_valid idn it = Ret false ∧
        get_priority idn it = Ret 0%Z.
Proof.
  intros Hne Hnl Hplain HU HH. eexists.
  split; [by apply new_item_empty_qualifier|]. split_and!; [done..| |done].
  rewrite (is_valid_plain idn Hplain _ "") by (done || by intros ?%elem_of_nil).
  f_equal. apply bool_decide_eq_false_2.
  pose proof (user_at_host_ne_empty idn). by intros [|[|]].
Qed.

Lemma empty_qualifier_witness :
  let idn := alice_box1 in
  let it := Item "config<>" "/src" (Some "config") (Some "") in
  ("config" ≠ "" ∧ newline_free "config" ∧
   plain_identity idn ∧ username idn ≠ "" ∧ host idn ≠ "") ∧
  ∃ it, new_item "/src" ("config" +:+ "<>") = Ret it ∧
        destination it = Some "config" ∧
        _specialization it = Some "" ∧
        is_valid idn it = Ret false ∧
        get_priority idn it = Ret 0%Z.
Proof.
  split; [split_and!; compute_done|].
  apply (empty_qualifier alice_box1 "/src" "config"); compute_done.
Defined.

(** An item that did not parse never gets a verdict from [is_valid]. *)
Lemma is_valid_unparsed_raises idn f d :
  ¬ returns (is_valid idn (Item f d None None)).
Proof.
  unfold is_valid, match_opt. simpl.
  destruct (compile (valid_matcher idn)); intros [b Hb]; discriminate.
Qed.

(** C6: code at the file name [a], newline, [b]. The name does not parse
    and both derived attributes stay [None]; [is_valid] then raises
    [TypeError] instead of returning [False], and the loop over the files
    of the directory stops there, before it reaches [config]. *)
Theorem unparsed_filename_raises :
  new_item "/src" two_lines = Ret (Item two_lines "/src" None None) ∧
  is_valid alice_box1 (Item two_lines "/src" None None) = Raise TypeError ∧
  process_files alice_box1 "/" never_ignored "/src" roots [two_lines; "config"]
  = Raise TypeError.
Proof. split_and!; vm_compute; reflexivity. Qed.

(** C4: code at the host [box.local] and the file name
    [config<boxXlocal>]. The qualifier is none of the host, the username and
    username@host, and [is_valid] returns [True]: the dot of the host is read
    as a pattern. *)
Theorem is_valid_reads_host_as_pattern :
  let idn := alice_dotted in
  let it := Item "config<boxXlocal>" "/src" (Some "config") (Some "boxXlocal") in
  new_item "/src" "config<boxXlocal>" = Ret it ∧
  "boxXlocal" ≠ host idn ∧ "boxXlocal" ≠ username idn ∧
  "boxXlocal" ≠ username idn +:+ "@" +:+ host idn ∧
  is_valid idn it = Ret true.
Proof. split_and!; try (vm_compute; reflexivity); compute_done. Qed.

(** The same verdict for a qualifier that is the host followed by a
    newline. *)
Lemma is_valid_accepts_trailing_newline :
  is_valid alice_box1
    (Item "config" "/src" (Some "config") (Some ("box1" +:+ String newline "")))
  = Ret true.
Proof. vm_compute; reflexivity. Qed.

(** C7: code at the host [box.local] and a directory that holds the single
    file [config<boxXlocal>]. The file passes the gate of the loop and the
    destination [/out/config] gets an entry. *)
Theorem pattern_host_admits_other_qualifier :
  let idn := alice_dotted in
  "boxXlocal" ≠ host idn ∧ "boxXlocal" ≠ username idn ∧
  "boxXlocal" ≠ username idn +:+ "@" +:+ host idn ∧
  process_files idn "/" never_ignored "/src" roots ["config<boxXlocal>"]
  = Ret (Container {["/out/config" := Entry "/src/config<boxXlocal>" 1%Z]}
           "/src" "/out").
Proof. split_and!; try (vm_compute; reflexivity); compute_done. Qed.

(** With the username [a)|(b] the two patterns differ, and the score -1
    is stored. *)
Lemma negative_priority_stored :
  process_files split_user "/" never_ignored "/src" roots ["config<aX>"]
  = Ret (Container {["/out/config" := Entry "/src/config<aX>" (-1)%Z]}
           "/src" "/out").
Proof. vm_compute; reflexivity. Qed.

(** C2: code at the username [u] and the host [.*]. The three candidates
    [f<.*>], [f<u@.*>] and [f] are valid; the first two both score 1, so the
    one added first is kept: in this order the entry of [/out/f] is the
    candidate qualified with the bare host. *)
Theorem pattern_host_breaks_specificity_order :
  let idn := star_host in
  let h := Item "f<.*>" "/src" (Some "f") (Some (host idn)) in
  let f := Item "f<u@.*>" "/src" (Some "f")
             (Some (username idn +:+ "@" +:+ host idn)) in
  let p := Item "f" "/src" (Some "f") None in
  new_item "/src" "f<.*>" = Ret h ∧ new_item "/src" "f<u@.*>" = Ret f ∧
  new_item "/src" "f" = Ret p ∧
  is_valid idn h = Ret true ∧ is_valid idn f = Ret true ∧ is_valid idn p = Ret true ∧
  get_priority idn h = Ret 1%Z ∧ get_priority idn f = Ret 1%Z ∧
  add_all idn "/" roots [h; f; p]
  = Ret (Container {["/out/f" := Entry "/src/f<.*>" 1%Z]} "/src" "/out").
Proof. split_and!; vm_compute; reflexivity. Qed.

(** C5, as stated, does not hold: the key is not [/out/b/myfile]. *)
Lemma destination_path_counterexample :
  dst_of "/" (new_container "/src" "/out")
    (Item "myfile" "/src/a/b" (Some "myfile") None) ≠ Ret "/out/b/myfile".
Proof. vm_compute. discriminate. Qed.

(** C5, amended. With source root [/src] and destination root [/out], a
    candidate in directory [/src/a/b] with base name [myfile] is mapped to
    [/out/a/b/myfile]: the whole path of the directory relative to the source
    root is kept. On a new container, [add] of the file [/src/a/b/myfile]
    stores that key with the source [/src/a/b/myfile]. *)
Theorem destination_path_keeps_relative_directory idn cwd :
  (∀ m f q, dst_of cwd (Container m "/src" "/out")
              (Item f "/src/a/b" (Some "myfile") q) = Ret "/out/a/b/myfile") ∧
  add idn cwd (new_container "/src" "/out")
    (Item "myfile" "/src/a/b" (Some "myfile") None)
  = Ret (Container {["/out/a/b/myfile" := Entry "/src/a/b/myfile" 0%Z]}
           "/src" "/out").
Proof. split; reflexivity. Qed.

(** The example of the module docstring: with source root [/a], the file
    [/a/b/my_file] is linked at [/out/b/my_file]. *)
Lemma docstring_example cwd :
  dst_of cwd (new_container "/a" "/out") (Item "my_file" "/a/b" (Some "my_file") None)
  = Ret "/out/b/my_file".
Proof. reflexivity. Qed.

End filename_claims.

(** * Identities without special characters

    For such identities the gate of the loop and the order of the scores
    are as C2 and C7 state them. *)

Section plain_identities.
Import Re Patterns ReFacts Inputs.
Variable idn : identity.
Hypothesis idn_plain : plain_identity idn.

Lemma user_outcome_defined n n' U H q outer outer' :
  user_outcome n U H q outer = None → user_outcome n' U H q outer' = None.
Proof.
  unfold user_outcome. destruct (strip U q) as [r|]; [|done].
  destruct (strip _ r) as [r'|]; [destruct (at_end r')|]; destruct (at_end r); done.
Qed.

Lemma valid_priority_nonneg it p :
  is_valid idn it = Ret true → get_priority idn it = Ret p → (0 ≤ p)%Z.
Proof.
  unfold is_valid, get_priority. intros Hv Hp.
  destruct (_specialization it) as [q|] eqn:Hq; [|simpl in Hp; by simplify_eq].
  destruct (truthy (Some q)); [|simpl in Hp; by simplify_eq]. simpl negb in Hp. cbn iota in Hp.
  rewrite (bool_decide_eq_false_2 (Some q = None)), andb_false_r in Hv by done.
  rewrite (match_opt_Some _ _ _ (compile_valid_matcher idn idn_plain)) in Hv.
  rewrite (match_opt_Some _ _ _ (compile_priority_matcher idn idn_plain)) in Hp.
  cbn [mbind res_bind p_re] in Hv, Hp.
  pose proof (valid_run (chars (username idn)) (chars (host idn)) (chars q)) as Hvr.
  pose proof (priority_run (chars (username idn)) (chars (host idn)) (chars q)) as Hpr.
  destruct (m (priority_re _ _) Some _) as [st|]; simpl in Hp; [simplify_eq; lia|].
  exfalso. simpl in Hpr.
  destruct (m (valid_re _ _) Some _) as [st|]; simpl in Hv;
    [|rewrite ?bool_decide_eq_false_2 in Hv by (by intros []); by simplify_eq].
  simpl in Hvr.
  destruct (host_outcome _ _); [done|].
  destruct (user_outcome 2 _ _ _ _) eqn:E2; [done|].
  by rewrite (user_outcome_defined _ 1 _ _ _ _ [] E2) in Hvr.
Qed.

(** A file whose qualifier is none of the three forms does not reach the
    container. *)
Lemma gate_excludes_other_qualifiers cwd ignored root c name it q :
  new_item root name = Ret it → _specialization it = Some q →
  newline_free q →
  q ≠ host idn → q ≠ username idn → q ≠ username idn +:+ "@" +:+ host idn →
  process_file idn cwd ignored root c name = Ret c.
Proof.
  intros Hit Hq Hnl H1 H2 H3. unfold process_file. rewrite Hit.
  cbn [mbind res_bind].
  rewrite (is_valid_plain idn idn_plain it q) by done.
  cbn [mbind res_bind].
  rewrite bool_decide_eq_false_2; [reflexivity|].
  intros [?|[?|?]]; contradiction.
Qed.

Lemma bind_Ret_inv {A B} (x : res A) (f : A → res B) b :
  x ≫= f = Ret b → ∃ a, x = Ret a ∧ f a = Ret b.
Proof. destruct x as [a|e]; [by exists a|discriminate]. Qed.

Lemma process_file_cases cwd ignored root c name c1 :
  process_file idn cwd ignored root c name = Ret c1 →
  c1 = c ∨ ∃ it, is_valid idn it = Ret true ∧ add idn cwd c it = Ret c1.
Proof.
  unfold process_file. intros (it & _ & H)%bind_Ret_inv.
  apply bind_Ret_inv in H as (v & Hv & H). destruct v; cbn [negb orb] in H.
  - destruct (ignored (filename it)).
    + left. injection H as <-. reflexivity.
    + right. exists it. split; [exact Hv|exact H].
  - left. injection H as <-. reflexivity.
Qed.

Lemma put_nonneg (m : gmap string entry) dx src p :
  (∀ d e, m !! d = Some e → (0 ≤ priority e)%Z) → (0 ≤ p)%Z →
  ∀ d e, put m dx src p !! d = Some e → (0 ≤ priority e)%Z.
Proof.
  intros Hm Hp d e. unfold put.
  destruct (m !! dx) as [e0|] eqn:E0; [case_bool_decide|].
  - destruct (decide (dx = d)) as [->|Hne];
      [rewrite lookup_insert_eq; intros [= <-]; exact Hp
      |rewrite lookup_insert_ne by exact Hne; apply Hm].
  - apply Hm.
  - destruct (decide (dx = d)) as [->|Hne];
      [rewrite lookup_insert_eq; intros [= <-]; exact Hp
      |rewrite lookup_insert_ne by exact Hne; apply Hm].
Qed.

Lemma process_file_nonneg cwd ignored root name c c1 :
  (∀ d e, _container c !! d = Some e → (0 ≤ priority e)%Z) →
  process_file idn cwd ignored root c name = Ret c1 →
  ∀ d e, _container c1 !! d = Some e → (0 ≤ priority e)%Z.
Proof.
  intros Hc H1.
  apply process_file_cases in H1 as [->|(it & Hv & H1)]; [exact Hc|].
  apply add_inv in H1 as (dx & p & Hdx & Hp & Hc1).
  rewrite Hc1. cbn [_container].
  apply put_nonneg; [exact Hc|]. exact (valid_priority_nonneg _ _ Hv Hp).
Qed.

Lemma process_files_cons cwd ignored root c name files :
  process_files idn cwd ignored root c (name :: files)
  = process_file idn cwd ignored root c name
      ≫= fun c1 => process_files idn cwd ignored root c1 files.
Proof. reflexivity. Qed.

(** No negative score is stored. *)
Lemma process_files_nonneg cwd ignored root files c c' :
  (∀ d e, _container c !! d = Some e → (0 ≤ priority e)%Z) →
  process_files idn cwd ignored root c files = Ret c' →
  ∀ d e, _container c' !! d = Some e → (0 ≤ priority e)%Z.
Proof.
  revert c. induction files as [|name files IH]; intros c Hc H.
  { injection H as <-. exact Hc. }
  rewrite process_files_cons in H.
  apply bind_Ret_inv in H as (c1 & H1 & H).
  apply (IH c1); [|exact H].
  exact (process_file_nonneg _ _ _ _ _ _ Hc H1).
Qed.

(** An item with a directory and a destination name, as the walk and the
    gate of the loop hand them over, is accepted by [add]. *)
Lemma valid_add_returns cwd c it :
  directory it ≠ "" → destination it ≠ None →
  returns (add idn cwd c it).
Proof.
  intros Hdir Hdest.
  assert (∃ d, dst_of cwd c it = Ret d) as [d Hd].
  { unfold dst_of, posixpath.relpath.
    rewrite bool_decide_eq_false_2 by exact Hdir.
    destruct (destination it) as [name|]; [|by destruct Hdest].
    destruct (replicate _ _ ++ _); eexists; reflexivity. }
  assert (∃ p, get_priority idn it = Ret p) as [p Hp].
  { unfold get_priority. destruct (_specialization it) as [q|]; [|by eexists].
    destruct (negb (truthy (Some q))); [by eexists|].
    rewrite (match_opt_Some _ _ _ (compile_priority_matcher idn idn_plain)).
    cbn [mbind res_bind].
    destruct (_ <$> _); eexists; reflexivity. }
  rewrite (add_put _ _ _ _ _ _ Hd Hp). by eexists.
Qed.

(** Among a host-qualified, a fully qualified and an unqualified candidate
    for one key, the fully qualified one is kept, in every order. *)
Lemma specificity_order_plain cwd c0 h f p d l c :
  username idn ≠ "" → host idn ≠ "" →
  newline_free (username idn) → newline_free (host idn) →
  _container c0 = ∅ →
  _specialization h = Some (host idn) →
  _specialization f = Some (username idn +:+ "@" +:+ host idn) →
  _specialization p = None →
  dst_of cwd c0 h = Ret d → dst_of cwd c0 f = Ret d → dst_of cwd c0 p = Ret d →
  l ≡ₚ [h; f; p] →
  add_all idn cwd c0 l = Ret c →
  _container c !! d = Some (Entry (src_of c0 f) 3%Z).
Proof.
  intros HU HH HnU HnH Hemp Hh Hf Hp Hdh Hdf Hdp Hperm Hadd.
  assert (get_priority idn h = Ret 1%Z) as Hph.
  { rewrite (get_priority_plain idn idn_plain h (host idn)) by done.
    by rewrite bool_decide_eq_true_2. }
  assert (get_priority idn f = Ret 3%Z) as Hpf.
  { rewrite (get_priority_plain idn idn_plain f _ HU HH Hf (user_at_host_ne_empty idn)
               (user_at_host_newline_free idn HnU HnH)).
    rewrite (bool_decide_eq_false_2 (_ = host idn)) by apply user_at_host_ne_host.
    by rewrite bool_decide_eq_true_2. }
  assert (get_priority idn p = Ret 0%Z) as Hpp.
  { unfold get_priority. by rewrite Hp. }
  pose proof (add_all_tracks idn cwd c0 l c Hemp Hadd d) as Ht.
  destruct (_container c !! d) as [e|].
  - apply selected_in in Ht as (it & Hit & Hd & Hpe & Hsrc & Hmax).
    assert (f ∈ l) as Hfl by (rewrite Hperm; set_solver).
    specialize (Hmax f _ Hfl Hdf Hpf).
    rewrite Hperm in Hit.
    apply elem_of_cons in Hit as [->|[->|[->|[]%elem_of_nil]%elem_of_cons]%elem_of_cons].
    + rewrite Hph in Hpe. simplify_eq. lia.
    + rewrite Hpf in Hpe. destruct e. simpl in *. by simplify_eq.
    + rewrite Hpp in Hpe. simplify_eq. lia.
  - exfalso. apply (Ht f); [rewrite Hperm; set_solver|done].
Qed.

End plain_identities.

(** * Parsing of file names, in general *)

Module SplitFacts.
Import Re Patterns ReFacts.

Lemma at_end_long l : (2 ≤ List.length l)%nat → at_end l = false.
Proof. destruct l as [|a [|b l]]; simpl; [lia..|done]. Qed.

Lemma at_end_inv l : at_end l = true → l = [] ∨ l = [newline].
Proof.
  destruct l as [|a [|b l]]; simpl; [by left| |done].
  intros ->%bool_decide_eq_true. by right.
Qed.

Lemma star_lazy_head c k pos caps l r :
  k (MState pos l caps) = Some r → star_lazy c k pos caps l = Some r.
Proof. intros H. destruct l; simpl; by rewrite H. Qed.

Lemma star_lazy_Some c k l pos caps r :
  star_lazy c k pos caps l = Some r →
  ∃ i, (i ≤ List.length l)%nat ∧
       Forall (fun x => cls_match c x = true) (take i l) ∧
       k (MState (pos + i) (drop i l) caps) = Some r.
Proof.
  revert pos. induction l as [|x l IH]; intros pos H; simpl in H.
  - exists 0. rewrite Nat.add_0_r. simpl.
    destruct (k _) eqn:E; [|done]. by split_and!.
  - destruct (k (MState pos (x :: l) caps)) eqn:E.
    + exists 0. rewrite Nat.add_0_r. simpl. split_and!; [lia|done|congruence].
    + destruct (cls_match c x) eqn:Hx; [|done].
      apply IH in H as (i & Hi & Hall & Hk). exists (S i). simpl.
      split_and!; [lia|by constructor|]. by rewrite Nat.add_succ_r.
Qed.

Lemma star_lazy_None c k l pos caps :
  (∀ i, (i ≤ List.length l)%nat → k (MState (pos + i) (drop i l) caps) = None) →
  star_lazy c k pos caps l = None.
Proof.
  revert pos. induction l as [|x l IH]; intros pos Hk; simpl.
  - specialize (Hk 0 ltac:(simpl; lia)). rewrite Nat.add_0_r in Hk.
    simpl in Hk. by rewrite Hk.
  - specialize (Hk 0 ltac:(simpl; lia)) as Hk0. rewrite Nat.add_0_r in Hk0.
    simpl in Hk0. rewrite Hk0. destruct (cls_match c x); [|done].
    apply IH. intros i Hi. specialize (Hk (S i) ltac:(simpl; lia)).
    by rewrite Nat.add_succ_r in Hk.
Qed.

Lemma star_lazy_reaches_end c k l pos caps :
  Forall (fun x => cls_match c x = true) l →
  is_Some (k (MState (pos + List.length l) [] caps)) →
  is_Some (star_lazy c k pos caps l).
Proof.
  intros Hl. revert pos. induction Hl as [|x l Hx _ IH]; intros pos Hk; simpl.
  - rewrite Nat.add_0_r in Hk. simpl in Hk. by destruct (k _).
  - destruct (k (MState pos (x :: l) caps)); [done|]. rewrite Hx.
    apply IH. cbn [List.length] in Hk. by rewrite Nat.add_succ_r in Hk.
Qed.

Lemma not_lt_match x : cls_match (CSet true ["<"%char]) x = true ↔ x ≠ "<"%char.
Proof.
  simpl. case_bool_decide as E; rewrite list_elem_of_singleton in E; simpl;
    split; intros; congruence.
Qed.

Lemma close_unfold k p r cs :
  m (Seq (One (CLit ">")) (Seq Eol Eps)) k (MState p r cs)
  = match r with
    | y :: u =>
        if bool_decide (y = ">"%char) then
          if at_end u then k (MState (S p) u cs) else None
        else None
    | [] => None
    end.
Proof. by destruct r. Qed.

Lemma qualifier_unfold k pos rest caps :
  m qualifier_re k (MState pos rest caps)
  = match rest with
    | x :: t =>
        if bool_decide (x = "<"%char) then
          star_lazy (CSet true ["<"%char])
            (fun st3 =>
               m (Seq (One (CLit ">")) (Seq Eol Eps))
                 (fun st2 => k (close_group 2 (MState pos rest caps) st2))
                 (close_group 3 (MState (S pos) t caps) st3))
            (S pos) caps t
        else None
    | [] => None
    end.
Proof. by destruct rest. Qed.

Lemma take_app_S (q : list ascii) x u :
  take (S (List.length q)) (q ++ x :: u) = q ++ [x].
Proof. induction q as [|a q IH]; simpl; [done|]. by rewrite IH. Qed.

Lemma split_at_drop (t : list ascii) i y u :
  drop i t = y :: u → ∃ q, t = q ++ y :: u ∧ List.length q = i.
Proof.
  intros Hd. exists (take i t). split; [by rewrite <-Hd, take_drop|].
  rewrite length_take. apply Nat.min_l.
  destruct (decide (i ≤ List.length t)%nat); [done|].
  rewrite drop_ge in Hd by lia. done.
Qed.

(** What a successful run of the qualifier part has read. *)
Lemma qualifier_Some k pos rest caps r :
  m qualifier_re k (MState pos rest caps) = Some r →
  ∃ q u,
    rest = ("<"%char :: q ++ ">"%char :: u) ∧ ("<"%char ∉ q) ∧ at_end u = true ∧
    k (MState (pos + S (S (List.length q))) u
         ((2, "<"%char :: q ++ [">"%char]) :: (3, q) :: caps)) = Some r.
Proof.
  rewrite qualifier_unfold. destruct rest as [|x t]; [done|].
  case_bool_decide as Hx; [subst x|done].
  intros (i & Hi & Hall & Hk)%star_lazy_Some.
  unfold close_group in Hk at 2. cbn [m_pos m_rest m_caps] in Hk.
  rewrite close_unfold in Hk.
  destruct (drop i t) as [|y u] eqn:Hd; [done|].
  case_bool_decide as Hy; [subst y|done].
  destruct (at_end u) eqn:Hu; [|done].
  apply split_at_drop in Hd as (q & -> & <-).
  rewrite take_app_length in Hall.
  exists q, u. split_and!; [done| |done|].
  - intros Hin. rewrite Forall_forall in Hall. apply Hall in Hin.
    by apply not_lt_match in Hin.
  - unfold close_group in Hk. cbn [m_pos m_rest m_caps] in Hk.
    replace (S pos + List.length q - S pos) with (List.length q) in Hk by lia.
    replace (S (S pos + List.length q) - pos) with (S (S (List.length q))) in Hk by lia.
    rewrite take_app_length in Hk. rewrite firstn_cons, take_app_S in Hk.
    replace (pos + S (S (List.length q))) with (S (S pos + List.length q)) by lia.
    exact Hk.
Qed.

Lemma at_end_with_gt w u : at_end (w ++ ">"%char :: u) = false.
Proof. by destruct w as [|a [|b w]], u as [|c u]. Qed.

(** A run of the qualifier part on a well-formed suffix. *)
Lemma qualifier_run k pos q u caps r :
  "<"%char ∉ q → at_end u = true →
  k (MState (pos + S (S (List.length q))) u
       ((2, "<"%char :: q ++ [">"%char]) :: (3, q) :: caps)) = Some r →
  m qualifier_re k (MState pos ("<"%char :: q ++ ">"%char :: u) caps) = Some r.
Proof.
  intros Hq Hu Hk. rewrite qualifier_unfold. rewrite bool_decide_eq_true_2 by done.
  rewrite star_lazy_skip.
  - apply star_lazy_head. unfold close_group at 2. cbn [m_pos m_rest m_caps].
    rewrite close_unfold. rewrite bool_decide_eq_true_2 by done. rewrite Hu.
    unfold close_group. cbn [m_pos m_rest m_caps].
    replace (S pos + List.length q - S pos) with (List.length q) by lia.
    replace (S (S pos + List.length q) - pos) with (S (S (List.length q))) by lia.
    rewrite take_app_length. rewrite firstn_cons, take_app_S.
    replace (S (S pos + List.length q)) with (pos + S (S (List.length q))) by lia.
    exact Hk.
  - apply Forall_forall. intros x Hx. apply not_lt_match. by intros ->.
  - intros i Hi. unfold close_group at 2. cbn [m_pos m_rest m_caps].
    rewrite close_unfold.
    destruct (drop i q) as [|h w] eqn:Hd.
    { apply (f_equal List.length) in Hd. rewrite length_drop in Hd. simpl in Hd. lia. }
    rewrite <-app_comm_cons. case_bool_decide; [|done]. by rewrite at_end_with_gt.
Qed.

Lemma split_tail_unfold pos rest caps :
  m split_tail Some (MState pos rest caps)
  = match m qualifier_re
            (fun st => if at_end (m_rest st) then Some st else None)
            (MState pos rest caps) with
    | Some r => Some r
    | None => if at_end rest then Some (MState pos rest caps) else None
    end.
Proof. reflexivity. Qed.

Lemma split_unfold s :
  m split_re Some (MState 0 s [])
  = match s with
    | c :: t =>
        if cls_match CAny c then
          star_lazy CAny
            (fun st => m split_tail Some (close_group 1 (MState 0 s []) st))
            1 [] t
        else None
    | [] => None
    end.
Proof. by destruct s. Qed.

(** What a match of the whole pattern has read: a name, then either the
    end of the subject or a qualifier and the end of the subject. *)
Lemma split_Some s st :
  m split_re Some (MState 0 s []) = Some st →
  ∃ n rest,
    s = n ++ rest ∧ n ≠ [] ∧ Forall (fun x => x ≠ newline) n ∧
    ((at_end rest = true ∧ m_caps st = [(1, n)])
     ∨ ∃ q u, rest = ("<"%char :: q ++ ">"%char :: u) ∧ ("<"%char ∉ q) ∧
              at_end u = true ∧
              m_caps st = [(2, "<"%char :: q ++ [">"%char]); (3, q); (1, n)]).
Proof.
  rewrite split_unfold. destruct s as [|c t]; [done|].
  destruct (cls_match CAny c) eqn:Hc; [|done].
  intros (i & Hi & Hall & Hk)%star_lazy_Some.
  unfold close_group in Hk. cbn [m_pos m_rest m_caps] in Hk.
  replace (1 + i - 0) with (S i) in Hk by lia. rewrite firstn_cons in Hk.
  exists (c :: take i t), (drop i t). split_and!.
  - by rewrite <-app_comm_cons, take_drop.
  - done.
  - constructor.
    + simpl in Hc. apply negb_true_iff, bool_decide_eq_false in Hc. done.
    + eapply Forall_impl; [exact Hall|]. intros x Hx. simpl in Hx.
      by apply negb_true_iff, bool_decide_eq_false in Hx.
  - rewrite split_tail_unfold in Hk.
    destruct (m qualifier_re _ _) as [r|] eqn:Hq.
    + right. simplify_eq.
      apply qualifier_Some in Hq as (q & u & Hrest & Hlt & Hu & Hk).
      cbn [m_rest] in Hk. rewrite Hu in Hk. simplify_eq.
      exists q, u. by split_and!.
    + left. destruct (at_end (drop i t)); [|done]. by simplify_eq.
Qed.

(** The run on a name followed by a qualifier. *)
Lemma split_run_qualified c name q :
  Forall (fun x => x ≠ newline) (c :: name) → "<"%char ∉ q →
  m_caps <$> m split_re Some (MState 0 ((c :: name) ++ "<"%char :: q ++ [">"%char]) [])
  = Some [(2, "<"%char :: q ++ [">"%char]); (3, q); (1, c :: name)].
Proof.
  intros Hn Hq.
  assert (m split_re Some (MState 0 ((c :: name) ++ "<"%char :: q ++ [">"%char]) [])
          = Some (MState (1 + List.length name + S (S (List.length q))) []
                    [(2, "<"%char :: q ++ [">"%char]); (3, q); (1, c :: name)]))
    as ->; [|done].
  rewrite split_unfold. rewrite <-app_comm_cons.
  assert (cls_match CAny c = true) as ->.
  { simpl. apply Forall_cons_1 in Hn as [Hc _]. by rewrite bool_decide_eq_false_2. }
  rewrite star_lazy_skip.
  - apply star_lazy_head.
    unfold close_group. cbn [m_pos m_rest m_caps].
    rewrite split_tail_unfold.
    rewrite (qualifier_run _ _ q [] _
               (MState (1 + List.length name + S (S (List.length q))) []
                  [(2, "<"%char :: q ++ [">"%char]); (3, q); (1, c :: name)]));
      [done|done|done|].
    cbn [m_rest at_end].
    replace (1 + List.length name - 0) with (S (List.length name)) by lia.
    by rewrite firstn_cons, take_app_length.
  - apply Forall_cons_1 in Hn as [_ Hn].
    eapply Forall_impl; [exact Hn|]. intros x Hx. simpl.
    by rewrite bool_decide_eq_false_2.
  - intros i Hi. unfold close_group. cbn [m_pos m_rest m_caps].
    rewrite split_tail_unfold.
    destruct (drop i name) as [|h w] eqn:Hd.
    { apply (f_equal List.length) in Hd. rewrite length_drop in Hd. simpl in Hd. lia. }
    destruct (m qualifier_re _ _) as [r|] eqn:Hr.
    + exfalso. apply qualifier_Some in Hr as (q' & u & Hrest & Hlt & Hu & _).
      rewrite <-app_comm_cons in Hrest. injection Hrest as _ Hrest.
      assert ("<"%char ∈ q' ++ ">"%char :: u) as Hin.
      { rewrite <-Hrest. rewrite elem_of_app. right. by left. }
      apply elem_of_app in Hin as [?|[?|Hin]%elem_of_cons]; [done..|].
      apply at_end_inv in Hu as [->| ->]; [by apply elem_of_nil in Hin|].
      by apply list_elem_of_singleton in Hin.
    + rewrite at_end_long; [done|]. simpl. rewrite !length_app. simpl. lia.
Qed.

Lemma star_lazy_skip_all c k l pos caps :
  Forall (fun x => cls_match c x = true) l →
  (∀ i, i < List.length l → k (MState (pos + i) (drop i l) caps) = None) →
  star_lazy c k pos caps l = star_lazy c k (pos + List.length l) caps [].
Proof.
  intros Hl Hk. rewrite <-(star_lazy_skip c k l [] pos caps Hl).
  - by rewrite app_nil_r.
  - intros i Hi. rewrite app_nil_r. by apply Hk.
Qed.

(** The run on a name that does not end with [>]. *)
Lemma split_run_unqualified c name :
  Forall (fun x => x ≠ newline) (c :: name) → last (c :: name) ≠ Some ">"%char →
  m_caps <$> m split_re Some (MState 0 (c :: name) []) = Some [(1, c :: name)].
Proof.
  intros Hn Hlast.
  assert (m split_re Some (MState 0 (c :: name) [])
          = Some (MState (1 + List.length name) [] [(1, c :: name)])) as ->; [|done].
  rewrite split_unfold.
  assert (cls_match CAny c = true) as ->.
  { simpl. apply Forall_cons_1 in Hn as [Hc _]. by rewrite bool_decide_eq_false_2. }
  rewrite star_lazy_skip_all.
  - apply star_lazy_head. unfold close_group. cbn [m_pos m_rest m_caps].
    rewrite split_tail_unfold, qualifier_unfold. cbn [at_end].
    replace (1 + List.length name - 0) with (S (List.length name)) by lia.
    by rewrite firstn_cons, firstn_all.
  - apply Forall_cons_1 in Hn as [_ Hn].
    eapply Forall_impl; [exact Hn|]. intros x Hx. simpl.
    by rewrite bool_decide_eq_false_2.
  - intros i Hi. unfold close_group. cbn [m_pos m_rest m_caps].
    rewrite split_tail_unfold.
    assert (newline ∉ drop i name) as Hnl.
    { intros Hin. apply Forall_cons_1 in Hn as [_ Hn].
      rewrite Forall_forall in Hn. apply (Hn newline); [|done].
      rewrite <-(take_drop i name), elem_of_app. by right. }
    destruct (m qualifier_re _ _) as [r|] eqn:Hr.
    + exfalso. apply qualifier_Some in Hr as (q' & u & Hrest & Hlt & Hu & _).
      rewrite at_end_no_newline in Hu
        by (intros ?; apply Hnl; rewrite Hrest; set_solver).
      apply bool_decide_eq_true in Hu as ->. apply Hlast.
      rewrite <-(take_drop i name), app_comm_cons, Hrest.
      rewrite last_app. rewrite (app_comm_cons q' [">"%char]), last_snoc. done.
    + rewrite at_end_no_newline by done. rewrite bool_decide_eq_false_2; [done|].
      intros Hd. apply (f_equal List.length) in Hd.
      rewrite length_drop in Hd. simpl in Hd. lia.
Qed.

(** A subject whose first line is the whole subject always matches. *)
Lemma split_total c name :
  Forall (fun x => x ≠ newline) (c :: name) →
  is_Some (m split_re Some (MState 0 (c :: name) [])).
Proof.
  intros Hn. rewrite split_unfold.
  assert (cls_match CAny c = true) as ->.
  { simpl. apply Forall_cons_1 in Hn as [Hc _]. by rewrite bool_decide_eq_false_2. }
  apply star_lazy_reaches_end.
  - apply Forall_cons_1 in Hn as [_ Hn].
    eapply Forall_impl; [exact Hn|]. intros x Hx. simpl.
    by rewrite bool_decide_eq_false_2.
  - unfold close_group. cbn [m_pos m_rest m_caps].
    by rewrite split_tail_unfold, qualifier_unfold.
Qed.

Lemma str_app a b : str (a ++ b) = str a +:+ str b.
Proof. induction a as [|x a IH]; [done|]. simpl. by rewrite IH. Qed.

Lemma str_chars s : str (chars s) = s.
Proof. apply string_of_list_ascii_of_string. Qed.

Lemma chars_str l : chars (str l) = l.
Proof. apply list_ascii_of_string_of_list_ascii. Qed.

(** [SpecializedItem(d, f)] in terms of the run of the pattern. *)
Lemma new_item_unfold d f :
  new_item d f
  = Ret (match m split_re Some (MState 0 (chars f) []) with
         | Some st => Item f d (cap 1 (m_caps st)) (cap 3 (m_caps st))
         | None => Item f d None None
         end).
Proof.
  unfold new_item, _split_specialization, match_. cbn [filename directory].
  rewrite compile_expression_matcher. cbn [mbind res_bind p_re].
  by destruct (m split_re Some _).
Qed.

End SplitFacts.

Section filename_extras.
Import Re Patterns ReFacts SplitFacts.

Lemma chars_nonempty s : s ≠ "" → ∃ c n, chars s = c :: n.
Proof. destruct s as [|c s]; [done|]. intros _. by exists c, (chars s). Qed.

Lemma newline_free_Forall s :
  newline_free s → Forall (fun x => x ≠ newline) (chars s).
Proof. intros Hnl. apply Forall_forall. intros x Hx ->. by apply Hnl. Qed.

(** X1. A file name made of a non-empty base name without a newline,
    [<], a qualifier without [<], and [>] parses into that base name and
    that qualifier. *)
Theorem new_item_qualified d name q :
  name ≠ "" → newline_free name → "<"%char ∉ chars q →
  new_item d (name +:+ "<" +:+ q +:+ ">")
  = Ret (Item (name +:+ "<" +:+ q +:+ ">") d (Some name) (Some q)).
Proof.
  intros Hne Hnl Hq. rewrite new_item_unfold. rewrite !chars_app.
  destruct (chars_nonempty name Hne) as (c & n & Hn).
  pose proof (newline_free_Forall name Hnl) as Hall. rewrite Hn in Hall.
  pose proof (split_run_qualified c n (chars q) Hall Hq) as Hrun.
  rewrite <-Hn in Hrun.
  change (chars "<" ++ chars q ++ chars ">") with ("<"%char :: chars q ++ [">"%char]).
  destruct (m split_re Some _) as [st|]; [|done].
  injection Hrun as ->. simpl cap. by rewrite !str_chars.
Qed.

Lemma new_item_qualified_witness :
  ("config" ≠ "" ∧ newline_free "config" ∧ ("<"%char ∉ chars "alice@box1")) ∧
  new_item "/src" ("config" +:+ "<" +:+ "alice@box1" +:+ ">")
  = Ret (Item ("config" +:+ "<" +:+ "alice@box1" +:+ ">") "/src"
           (Some "config") (Some "alice@box1")).
Proof.
  split; [split_and!; compute_done|].
  apply (new_item_qualified "/src" "config" "alice@box1"); compute_done.
Defined.

(** X2. A non-empty file name without a newline that does not end with
    [>] parses into itself, without a qualifier. *)
Theorem new_item_unqualified d name :
  name ≠ "" → newline_free name → last (chars name) ≠ Some ">"%char →
  new_item d name = Ret (Item name d (Some name) None).
Proof.
  intros Hne Hnl Hlast. rewrite new_item_unfold.
  destruct (chars_nonempty name Hne) as (c & n & Hn).
  pose proof (newline_free_Forall name Hnl) as Hall. rewrite Hn in Hall, Hlast.
  pose proof (split_run_unqualified c n Hall Hlast) as Hrun.
  rewrite <-Hn in Hrun.
  destruct (m split_re Some _) as [st|]; [|done].
  injection Hrun as ->. simpl cap. by rewrite !str_chars.
Qed.

Lemma new_item_unqualified_witness :
  (".bashrc" ≠ "" ∧ newline_free ".bashrc" ∧
   last (chars ".bashrc") ≠ Some ">"%char) ∧
  new_item "/src" ".bashrc" = Ret (Item ".bashrc" "/src" (Some ".bashrc") None).
Proof.
  split; [split_and!; compute_done|].
  apply (new_item_unqualified "/src" ".bashrc"); compute_done.
Defined.

(** X3. [SpecializedItem(d, f)] never raises and keeps [d] and [f]. When
    the name parsed, the destination name is not empty and has no newline,
    a qualifier has no [<], and the parts put together again give [f], up
    to one newline at the end of [f], which is dropped. *)
Theorem new_item_reassembles d f :
  ∃ it, new_item d f = Ret it ∧ filename it = f ∧ directory it = d ∧
    ((destination it = None ∧ _specialization it = None)
     ∨ ∃ n tail,
         destination it = Some n ∧ n ≠ "" ∧ newline_free n ∧
         (tail = "" ∨ tail = String newline "") ∧
         ((_specialization it = None ∧ f = n +:+ tail)
          ∨ ∃ q, _specialization it = Some q ∧ ("<"%char ∉ chars q) ∧
                 f = n +:+ "<" +:+ q +:+ ">" +:+ tail)).
Proof.
  eexists. split; [apply new_item_unfold|].
  destruct (m split_re Some _) as [st|] eqn:Hrun; [|split_and!; [done..|by left]].
  split_and!; [done..|]. right. cbn [destination _specialization].
  apply split_Some in Hrun as (n & rest & Hf & Hn & Hall & Hcases).
  assert (str n ≠ "") as Hne by (by destruct n).
  assert (newline_free (str n)) as Hnl.
  { unfold newline_free. rewrite chars_str. intros Hin.
    rewrite Forall_forall in Hall. by apply (Hall newline). }
  assert (f = str n +:+ str rest) as Hfs by (by rewrite <-str_app, <-Hf, str_chars).
  assert (∀ u, at_end u = true → str u = "" ∨ str u = String newline "") as Htail.
  { intros u [->| ->]%at_end_inv; [by left|by right]. }
  destruct Hcases as [[Hend ->]|(q & u & -> & Hq & Hu & ->)]; simpl cap.
  - exists (str n), (str rest). split_and!; [done..|by apply Htail|]. by left.
  - exists (str n), (str u). split_and!; [done..|by apply Htail|]. right.
    exists (str q). split_and!; [done|by rewrite chars_str|].
    rewrite Hfs. f_equal. simpl. f_equal. by rewrite str_app.
Qed.

(** X4. Every non-empty file name without a newline parses: the item has a
    destination name, which is not empty. *)
Theorem new_item_parses d f :
  f ≠ "" → newline_free f →
  ∃ it n, new_item d f = Ret it ∧ destination it = Some n ∧ n ≠ "".
Proof.
  intros Hne Hnl. rewrite new_item_unfold.
  destruct (chars_nonempty f Hne) as (c & l & Hf).
  pose proof (newline_free_Forall f Hnl) as Hall. rewrite Hf in *.
  destruct (split_total c l Hall) as [st Hrun]. rewrite Hrun.
  apply split_Some in Hrun as (n & rest & _ & Hn & _ & Hcases).
  eexists _, (str n). split; [done|]. cbn [destination].
  split; [|by destruct n].
  by destruct Hcases as [[_ ->]|(q & u & _ & _ & _ & ->)].
Qed.

Lemma new_item_parses_witness :
  ("a<b" ≠ "" ∧ newline_free "a<b") ∧
  ∃ it n, new_item "/src" "a<b" = Ret it ∧ destination it = Some n ∧ n ≠ "".
Proof.
  split; [split_and!; compute_done|].
  apply (new_item_parses "/src" "a<b"); compute_done.
Defined.

End filename_extras.

Section identity_extras.
Import Re Patterns ReFacts Inputs.

Lemma truthy_count_le gs : (truthy_count gs ≤ List.length gs)%nat.
Proof. unfold truthy_count. apply length_filter. Qed.

(** X5. For an identity without special characters of [re] and a
    qualifier without a newline, [is_valid] returns, and returns [True]
    exactly when the qualifier is equal to the host, to the username or to
    username@host. *)
Theorem is_valid_is_equality idn it q :
  plain_identity idn → _specialization it = Some q → newline_free q →
  is_valid idn it
  = Ret (bool_decide (q = host idn ∨ q = username idn
                      ∨ q = username idn +:+ "@" +:+ host idn)).
Proof. intros Hplain Hq Hnl. by apply is_valid_plain. Qed.

Lemma is_valid_is_equality_witness :
  (plain_identity alice_box1 ∧ _specialization config_user = Some "alice" ∧
   newline_free "alice") ∧
  is_valid alice_box1 config_user
  = Ret (bool_decide ("alice" = host alice_box1 ∨ "alice" = username alice_box1
                      ∨ "alice" = username alice_box1 +:+ "@" +:+ host alice_box1)).
Proof.
  split; [split_and!; compute_done|].
  apply (is_valid_is_equality alice_box1 config_user "alice"); compute_done.
Defined.

(** X6. For an identity without special characters of [re], the two
    patterns agree: on an item with a non-empty qualifier both methods
    return, the score lies between -1 and 3, and the item is valid exactly
    when its score is not -1. *)
Theorem valid_iff_scored idn it q :
  plain_identity idn → _specialization it = Some q → q ≠ "" →
  ∃ v p, is_valid idn it = Ret v ∧ get_priority idn it = Ret p ∧
         (-1 ≤ p ≤ 3)%Z ∧ (v = true ↔ p ≠ (-1)%Z).
Proof.
  intros Hplain Hq Hne. unfold is_valid, get_priority. rewrite Hq.
  rewrite (bool_decide_eq_false_2 (Some q = None)), andb_false_r by done.
  unfold truthy at 1. rewrite (bool_decide_eq_false_2 (q = "")) by done.
  cbn [negb].
  rewrite (match_opt_Some _ _ _ (compile_valid_matcher idn Hplain)).
  rewrite (match_opt_Some _ _ _ (compile_priority_matcher idn Hplain)).
  cbn [mbind res_bind p_re].
  pose proof (valid_run (chars (username idn)) (chars (host idn)) (chars q)) as Hvr.
  pose proof (priority_run (chars (username idn)) (chars (host idn)) (chars q)) as Hpr.
  destruct (m (priority_re _ _) Some _) as [sp|];
    destruct (m (valid_re _ _) Some _) as [sv|];
    cbn [fmap option_fmap option_map] in *.
  - eexists _, _. split; [reflexivity|]. split; [reflexivity|]. split.
    + unfold match_of. cbn [mo_groups p_groups seq fmap list_fmap].
      match goal with |- context [filter _ ?gs] =>
        pose proof (truthy_count_le gs) as Hle; unfold truthy_count in Hle end.
      simpl List.length in Hle at 2. lia.
    + rewrite bool_decide_eq_true_2 by done. split; [|done]. intros _. lia.
  - exfalso. destruct (host_outcome _ _); [done|].
    destruct (user_outcome 1 _ _ _ _) eqn:E1; [done|].
    by rewrite (user_outcome_defined _ 2 _ _ _ _ [] E1) in Hpr.
  - exfalso. destruct (host_outcome _ _); [done|].
    destruct (user_outcome 2 _ _ _ _) eqn:E2; [done|].
    by rewrite (user_outcome_defined _ 1 _ _ _ _ [] E2) in Hvr.
  - eexists _, _. split; [reflexivity|]. split; [reflexivity|]. split; [lia|].
    rewrite bool_decide_eq_false_2 by (by intros []). split; done.
Qed.

Lemma valid_iff_scored_witness :
  (plain_identity alice_box1 ∧ _specialization config_full = Some "alice@box1" ∧
   "alice@box1" ≠ "") ∧
  ∃ v p, is_valid alice_box1 config_full = Ret v ∧
         get_priority alice_box1 config_full = Ret p ∧
         (-1 ≤ p ≤ 3)%Z ∧ (v = true ↔ p ≠ (-1)%Z).
Proof.
  split; [split_and!; compute_done|].
  apply (valid_iff_scored alice_box1 config_full "alice@box1"); compute_done.
Defined.

End identity_extras.

Section add_extras.
Import Patterns Inputs.

Lemma relpath_returns cwd path start :
  path ≠ "" → returns (posixpath.relpath cwd path start).
Proof.
  intros Hp. unfold posixpath.relpath. rewrite bool_decide_eq_false_2 by exact Hp.
  destruct (replicate _ _ ++ _); eexists; reflexivity.
Qed.



(** X8. An [add] that returns keeps the two roots, touches no key but the
    one of its item, which has an entry afterwards, and neither removes an
    entry nor lowers the priority of one. *)
Theorem add_keeps_other_entries idn cwd c it c' :
  add idn cwd c it = Ret c' →
  src_root c' = src_root c ∧ dst_root c' = dst_root c ∧
  ∃ key, dst_of cwd c it = Ret key ∧
         is_Some (_container c' !! key) ∧
         (∀ d, d ≠ key → _container c' !! d = _container c !! d) ∧
         (∀ d e, _container c !! d = Some e →
                 ∃ e', _container c' !! d = Some e' ∧ (priority e ≤ priority e')%Z).
Proof.
  intros (key & p & Hkey & Hp & ->)%add_inv. cbn [src_root dst_root _container].
  split_and!; [done..|]. exists key. unfold put.
  destruct (_container c !! key) as [e0|] eqn:E0; [case_bool_decide as Hlt|].
  - split_and!; [done|by rewrite lookup_insert_eq| |].
    + intros d Hd. by rewrite lookup_insert_ne.
    + intros d e He. destruct (decide (key = d)) as [->|Hne].
      * rewrite lookup_insert_eq. eexists. split; [done|]. simpl.
        rewrite E0 in He. simplify_eq. lia.
      * rewrite lookup_insert_ne by done. exists e. split; [done|lia].
  - split_and!; [done|by rewrite E0|done|].
    intros d e He. exists e. split; [done|lia].
  - split_and!; [done|by rewrite lookup_insert_eq| |].
    + intros d Hd. by rewrite lookup_insert_ne.
    + intros d e He. destruct (decide (key = d)) as [->|Hne]; [congruence|].
      rewrite lookup_insert_ne by done. exists e. split; [done|lia].
Qed.

Lemma add_keeps_other_entries_witness :
  let c := Container {["/out/config" := Entry "/src/config<alice>" 2%Z]}
             "/src" "/out" in
  let c' := Container {["/out/config" := Entry "/src/config<alice@box1>" 3%Z]}
              "/src" "/out" in
  add alice_box1 "/" c config_full = Ret c' ∧
  src_root c' = src_root c ∧ dst_root c' = dst_root c ∧
  ∃ key, dst_of "/" c config_full = Ret key ∧
         is_Some (_container c' !! key) ∧
         (∀ d, d ≠ key → _container c' !! d = _container c !! d) ∧
         (∀ d e, _container c !! d = Some e →
                 ∃ e', _container c' !! d = Some e' ∧ (priority e ≤ priority e')%Z).
Proof.
  split; [vm_compute; reflexivity|].
  apply (add_keeps_other_entries alice_box1 "/" _ config_full). vm_compute; reflexivity.
Defined.

(** X9. The keys of the dict and the priority stored for each key do not
    depend on the order of the [add] calls, ties included: a tie can only
    change which source is stored. *)
Theorem priorities_order_independent idn cwd sr dr l l' c :
  add_all idn cwd (new_container sr dr) l = Ret c →
  l ≡ₚ l' →
  ∃ c', add_all idn cwd (new_container sr dr) l' = Ret c' ∧
        ∀ d, priority <$> _container c' !! d = priority <$> _container c !! d.
Proof.
  intros H Hperm. set (c0 := new_container sr dr) in *.
  destruct (add_all_returns idn cwd c0 l') as [c' H'].
  { intros x Hx. eapply add_all_defined; [exact H|]. by rewrite Hperm. }
  exists c'. split; [done|]. intros d.
  pose proof (add_all_tracks idn cwd c0 l c eq_refl H d) as Ht.
  pose proof (add_all_tracks idn cwd c0 l' c' eq_refl H' d) as Ht'.
  destruct (_container c !! d) as [e|], (_container c' !! d) as [e'|]; [| | |done].
  - apply selected_in in Ht as (it & Hit & Hd & Hp & _ & Hmax).
    apply selected_in in Ht' as (it' & Hit' & Hd' & Hp' & _ & Hmax').
    assert (it' ∈ l) as Hit1 by (by rewrite Hperm).
    assert (it ∈ l') as Hit2 by (by rewrite <-Hperm).
    specialize (Hmax _ _ Hit1 Hd' Hp'). specialize (Hmax' _ _ Hit2 Hd Hp).
    simpl. f_equal. lia.
  - apply selected_in in Ht as (it & Hit & Hd & _).
    rewrite Hperm in Hit. by destruct (Ht' _ Hit).
  - apply selected_in in Ht' as (it & Hit & Hd & _).
    rewrite <-Hperm in Hit. by destruct (Ht _ Hit).
Qed.

Lemma priorities_order_independent_witness :
  let l := [config_host; config_user; Item "config<box1>" "/src/." (Some "config") (Some "box1")] in
  let l' := rev l in
  let c := Container {["/out/config" := Entry "/src/config<alice>" 2%Z]}
             "/src" "/out" in
  add_all alice_box1 "/" roots l = Ret c ∧ l ≡ₚ l' ∧
  ∃ c', add_all alice_box1 "/" roots l' = Ret c' ∧
        ∀ d, priority <$> _container c' !! d = priority <$> _container c !! d.
Proof.
  split; [vm_compute; reflexivity|]. split; [exact (Permutation_rev _)|].
  apply (priorities_order_independent alice_box1 "/" "/src" "/out"
           [config_host; config_user;
            Item "config<box1>" "/src/." (Some "config") (Some "box1")]);
    [vm_compute; reflexivity|exact (Permutation_rev _)].
Defined.

End add_extras.

Section path_extras.
Import Inputs.

Lemma isabs_inv p : posixpath.isabs p = true → ∃ p', p = String "/" p'.
Proof.
  intros H. destruct p as [|a p']; [by vm_compute in H|].
  unfold posixpath.isabs, posixpath.startswith in H. cbn [String.prefix] in H.
  destruct (ascii_dec "/" a) as [<-|]; [by eexists|discriminate H].
Qed.

Lemma isabs_append p x : posixpath.isabs p = true → posixpath.isabs (p +:+ x) = true.
Proof.
  intros [p' ->]%isabs_inv. unfold posixpath.isabs, posixpath.startswith.
  simpl. by destruct (p' +:+ x).
Qed.

Lemma normpath_isabs p :
  posixpath.isabs p = true → posixpath.isabs (posixpath.normpath p) = true.
Proof.
  intros Habs. destruct (isabs_inv p Habs) as [p' Hp].
  unfold posixpath.normpath.
  rewrite bool_decide_eq_false_2 by (by rewrite Hp).
  unfold posixpath.isabs in Habs. rewrite Habs.
  destruct (_ && _); rewrite bool_decide_eq_false_2 by done;
    by apply isabs_append.
Qed.

Lemma abspath_isabs cwd p :
  posixpath.isabs cwd = true → posixpath.isabs (posixpath.abspath cwd p) = true.
Proof.
  intros Hcwd. unfold posixpath.abspath. apply normpath_isabs.
  destruct (posixpath.isabs p) eqn:Hp; [done|].
  unfold posixpath.join. cbn [foldl]. unfold posixpath.join2.
  unfold posixpath.isabs in Hp. rewrite Hp.
  destruct (_ || _); by apply isabs_append.
Qed.

(** X10. When the working directory is an absolute path, as [os.getcwd()]
    gives it, every key of the dict after a sequence of [add] calls on a new
    container is an absolute path, whatever the roots and the directories
    of the items are. *)
Theorem keys_are_absolute idn cwd sr dr l c d :
  posixpath.isabs cwd = true →
  add_all idn cwd (new_container sr dr) l = Ret c →
  is_Some (_container c !! d) →
  posixpath.isabs d = true.
Proof.
  intros Hcwd H [e He].
  pose proof (add_all_tracks idn cwd (new_container sr dr) l c eq_refl H d) as Ht.
  rewrite He in Ht.
  apply selected_in in Ht as (it & _ & Hd & _).
  unfold dst_of in Hd.
  destruct (posixpath.relpath _ _ _) as [rel|]; [|discriminate Hd].
  cbn [mbind res_bind] in Hd.
  destruct (destination it) as [name|]; [|discriminate Hd].
  injection Hd as <-. by apply abspath_isabs.
Qed.

Lemma keys_are_absolute_witness :
  let c := Container {["/home/alice/out/config" := Entry "/src/./config" 0%Z]}
             "/src" "out" in
  (posixpath.isabs "/home/alice" = true ∧
   add_all alice_box1 "/home/alice" (new_container "/src" "out")
     [Item "config" "/src/." (Some "config") None] = Ret c ∧
   is_Some (_container c !! "/home/alice/out/config")) ∧
  posixpath.isabs "/home/alice/out/config" = true.
Proof.
  split; [split_and!; [reflexivity|vm_compute; reflexivity|by eexists]|].
  apply (keys_are_absolute alice_box1 "/home/alice" "/src" "out"
           [Item "config" "/src/." (Some "config") None]
           (Container {["/home/alice/out/config" := Entry "/src/./config" 0%Z]}
              "/src" "out"));
    [reflexivity|vm_compute; reflexivity|by eexists].
Defined.

End path_extras.

(** * The walk of [main] *)

Section walk_facts.
Context (idn : identity) (cwd : string) (ignored : string → bool).

Lemma process_file_inv root c name c1 :
  process_file idn cwd ignored root c name = Ret c1 →
  ∃ it v, new_item root name = Ret it ∧ is_valid idn it = Ret v ∧
    if negb v || ignored (filename it) then c1 = c
    else add idn cwd c it = Ret c1.
Proof.
  unfold process_file. intros (it & Hit & H)%bind_Ret_inv.
  apply bind_Ret_inv in H as (v & Hv & H).
  exists it, v. split; [exact Hit|]. split; [exact Hv|].
  destruct (negb v || ignored (filename it)); [by injection H|exact H].
Qed.

Lemma add_all_cons c it l :
  add_all idn cwd c (it :: l) = add idn cwd c it ≫= fun c1 => add_all idn cwd c1 l.
Proof. reflexivity. Qed.

(** The loop over the files of one directory is a sequence of [add] calls
    for the accepted files, in the order of [files]. *)
Lemma process_files_add_all root files c c' :
  process_files idn cwd ignored root c files = Ret c' →
  ∃ l, add_all idn cwd c l = Ret c' ∧
       ∀ it, it ∈ l ↔ accepted_in idn ignored root files it.
Proof.
  revert c. induction files as [|name files IH]; intros c H.
  { injection H as <-. exists []. split; [reflexivity|]. intros it. split.
    - intros Hn%elem_of_nil. destruct Hn.
    - intros (n & Hn%elem_of_nil & _). destruct Hn. }
  rewrite process_files_cons in H.
  apply bind_Ret_inv in H as (c1 & H1 & H).
  apply IH in H as (l & Hl & Hin).
  apply process_file_inv in H1 as (it & v & Hit & Hv & Hc1).
  destruct (negb v || ignored (filename it)) eqn:Hskip.
  - subst c1. exists l. split; [exact Hl|]. intros x. rewrite Hin. split.
    + intros (n & Hn & Hx). exists n. split; [by right|exact Hx].
    + intros (n & [->|Hn]%elem_of_cons & Hx & Hxv & Hxi).
      * exfalso. rewrite Hit in Hx. injection Hx as <-.
        rewrite Hv in Hxv. injection Hxv as ->. rewrite Hxi in Hskip.
        discriminate Hskip.
      * exists n. split; [exact Hn|]. split; [exact Hx|]. split; [exact Hxv|exact Hxi].
  - apply orb_false_iff in Hskip as [Hv' Hi]. apply negb_false_iff in Hv'. subst v.
    exists (it :: l). split.
    { rewrite add_all_cons, Hc1. exact Hl. }
    intros x. rewrite elem_of_cons, Hin. split.
    + intros [->|(n & Hn & Hx)].
      * exists name. split; [by left|]. split; [exact Hit|]. split; [exact Hv|exact Hi].
      * exists n. split; [by right|exact Hx].
    + intros (n & [->|Hn]%elem_of_cons & Hx & Hxv & Hxi).
      * left. rewrite Hit in Hx. injection Hx as <-. reflexivity.
      * right. exists n. split; [exact Hn|]. split; [exact Hx|]. split; [exact Hxv|exact Hxi].
Qed.

Lemma visit_inv sr dr st root dirs files st' :
  visit idn cwd ignored sr dr st (root, dirs, files) = Ret st' →
  ∃ rel, posixpath.relpath cwd root sr = Ret rel ∧
    if ignored rel then st' = st
    else ∃ c', process_files idn cwd ignored root st.1 files = Ret c' ∧
               st' = (c', match dirs with
                          | [] => {[posixpath.abspath cwd (posixpath.join dr [rel])]} ∪ st.2
                          | _ :: _ => st.2
                          end).
Proof.
  unfold visit. intros (rel & Hrel & H)%bind_Ret_inv. exists rel.
  split; [exact Hrel|]. destruct (ignored rel); [by injection H|].
  apply bind_Ret_inv in H as (c' & Hc' & H). exists c'. split; [exact Hc'|].
  destruct dirs; by injection H.
Qed.

Lemma visit_all_cons sr dr st triple walk :
  visit_all idn cwd ignored sr dr st (triple :: walk)
  = visit idn cwd ignored sr dr st triple
      ≫= fun st1 => visit_all idn cwd ignored sr dr st1 walk.
Proof. reflexivity. Qed.

Lemma add_all_app_Ret c l1 l2 c1 c2 :
  add_all idn cwd c l1 = Ret c1 → add_all idn cwd c1 l2 = Ret c2 →
  add_all idn cwd c (l1 ++ l2) = Ret c2.
Proof. intros H1 H2. by rewrite add_all_app, H1. Qed.

(** The walk is a sequence of [add] calls for the accepted files, and
    collects the leaf directories. *)
Lemma visit_all_add_all sr dr walk st st' :
  visit_all idn cwd ignored sr dr st walk = Ret st' →
  (∃ l, add_all idn cwd st.1 l = Ret st'.1 ∧
        ∀ it, it ∈ l ↔ accepted idn cwd ignored sr walk it) ∧
  (∀ d, d ∈ st'.2 ↔ d ∈ st.2 ∨ leaf_directory cwd ignored sr dr walk d).
Proof.
  revert st. induction walk as [|[[root dirs] files] walk IH]; intros st H.
  { injection H as <-. split.
    - exists []. split; [done|]. intros it. split; [by intros ?%elem_of_nil|].
      intros (?&?&?&?& Hn%elem_of_nil &_). done.
    - intros d. split; [by left|]. intros [?|(?&?&?& Hn%elem_of_nil &_)]; done. }
  rewrite visit_all_cons in H.
  apply bind_Ret_inv in H as (st1 & H1 & H).
  apply IH in H as [(l2 & Hl2 & Hin2) Hd2].
  apply visit_inv in H1 as (rel & Hrel & H1).
  destruct (ignored rel) eqn:Hign.
  - subst st1. split.
    + exists l2. split; [exact Hl2|]. intros it. rewrite Hin2. split.
      * intros (r & ds & fs & rl & Hw & Hx). exists r, ds, fs, rl.
        split; [by right|exact Hx].
      * intros (r & ds & fs & rl & [Heq|Hw]%elem_of_cons & Hr & Hi & Hx).
        -- exfalso. injection Heq as -> -> ->. rewrite Hrel in Hr.
           injection Hr as <-. congruence.
        -- by exists r, ds, fs, rl.
    + intros d. rewrite Hd2. split.
      * intros [?|(r & fs & rl & Hw & Hx)]; [by left|]. right.
        exists r, fs, rl. split; [by right|exact Hx].
      * intros [?|(r & fs & rl & [Heq|Hw]%elem_of_cons & Hr & Hi & Hx)]; [by left| |].
        -- exfalso. injection Heq as -> <- ->. rewrite Hrel in Hr.
           injection Hr as <-. congruence.
        -- right. by exists r, fs, rl.
  - destruct H1 as (c' & Hc' & ->). cbn [fst snd] in *.
    apply process_files_add_all in Hc' as (l1 & Hl1 & Hin1). split.
    + exists (l1 ++ l2). split; [by eapply add_all_app_Ret|].
      intros it. rewrite elem_of_app, Hin1, Hin2. split.
      * intros [Hx|(r & ds & fs & rl & Hw & Hx)].
        -- exists root, dirs, files, rel. split; [by left|done].
        -- exists r, ds, fs, rl. split; [by right|exact Hx].
      * intros (r & ds & fs & rl & [Heq|Hw]%elem_of_cons & Hr & Hi & Hx).
        -- left. by injection Heq as -> -> ->.
        -- right. by exists r, ds, fs, rl.
    + intros d. rewrite Hd2. destruct dirs as [|x dirs].
      * rewrite elem_of_union, elem_of_singleton. split.
        -- intros [[->|?]|(r & fs & rl & Hw & Hx)].
           ++ right. exists root, files, rel. split; [by left|done].
           ++ by left.
           ++ right. exists r, fs, rl. split; [by right|exact Hx].
        -- intros [?|(r & fs & rl & [Heq|Hw]%elem_of_cons & Hr & Hi & Hx)].
           ++ left. by right.
           ++ left. left. injection Heq as -> ->. rewrite Hrel in Hr.
              by injection Hr as <-.
           ++ right. by exists r, fs, rl.
      * split.
        -- intros [?|(r & fs & rl & Hw & Hx)]; [by left|]. right.
           exists r, fs, rl. split; [by right|exact Hx].
        -- intros [?|(r & fs & rl & [Heq|Hw]%elem_of_cons & Hr & Hi & Hx)];
             [by left|discriminate Heq|].
           right. by exists r, fs, rl.
Qed.

Lemma plan_add_all src dst walk c ds :
  plan idn cwd ignored src dst walk = Ret (c, ds) →
  (∃ l, add_all idn cwd (new_container (posixpath.abspath cwd src)
                           (posixpath.abspath cwd dst)) l = Ret c ∧
        ∀ it, it ∈ l ↔ accepted idn cwd ignored (posixpath.abspath cwd src) walk it) ∧
  (∀ d, d ∈ ds ↔ leaf_directory cwd ignored (posixpath.abspath cwd src)
                   (posixpath.abspath cwd dst) walk d).
Proof.
  unfold plan. intros H. apply visit_all_add_all in H as [Hl Hd].
  cbn [fst snd] in Hl, Hd. split; [exact Hl|].
  intros d. rewrite Hd. split; [|by right].
  intros [Hin|Hleaf]; [|exact Hleaf]. by apply elem_of_empty in Hin.
Qed.

End walk_facts.

Section plain_walk_facts.
Import Re Patterns ReFacts SplitFacts.
Context (idn : identity) (cwd : string) (ignored : string → bool).
Hypothesis idn_plain : plain_identity idn.

Lemma get_priority_range it p :
  get_priority idn it = Ret p → (-1 ≤ p ≤ 3)%Z.
Proof.
  unfold get_priority. intros Hp.
  destruct (_specialization it) as [q|]; [|simpl in Hp; injection Hp as <-; lia].
  destruct (negb (truthy (Some q))); [injection Hp as <-; lia|].
  rewrite (match_opt_Some _ _ _ (compile_priority_matcher idn idn_plain)) in Hp.
  cbn [mbind res_bind p_re] in Hp.
  destruct (m (priority_re _ _) Some _) as [st|];
    cbn [fmap option_fmap option_map] in Hp; injection Hp as <-; [|lia].
  unfold match_of. cbn [mo_groups p_groups seq fmap list_fmap].
  match goal with |- context [filter _ ?gs] =>
    pose proof (length_filter (fun g => truthy g = true) gs) as Hle end.
  simpl List.length in Hle at 2. lia.
Qed.

Lemma new_item_destination d f :
  f ≠ "" → newline_free f →
  ∃ it n, new_item d f = Ret it ∧ filename it = f ∧ directory it = d ∧
          destination it = Some n ∧ n ≠ "".
Proof.
  intros Hne Hnl. rewrite new_item_unfold.
  destruct f as [|a f']; [by destruct Hne|].
  assert (Forall (fun x => x ≠ newline) (a :: chars f')) as Hall.
  { apply Forall_forall. intros x Hx ->. by apply Hnl. }
  change (chars (String a f')) with (a :: chars f').
  destruct (split_total a (chars f') Hall) as [st Hrun]. rewrite Hrun.
  apply split_Some in Hrun as (n & rest & _ & Hn & _ & Hcases).
  eexists _, (str n). split; [reflexivity|]. cbn [filename directory destination].
  split; [reflexivity|]. split; [reflexivity|].
  split; [|by destruct n].
  by destruct Hcases as [[_ ->]|(q & u & _ & _ & _ & ->)].
Qed.

Lemma is_valid_returns it n :
  destination it = Some n → n ≠ "" → returns (is_valid idn it).
Proof.
  intros Hd Hn. unfold is_valid. rewrite Hd.
  destruct (_specialization it) as [q|].
  - rewrite (bool_decide_eq_false_2 (Some q = None)), andb_false_r by done.
    rewrite (match_opt_Some _ _ _ (compile_valid_matcher idn idn_plain)).
    cbn [mbind res_bind]. eexists. reflexivity.
  - unfold truthy. rewrite (bool_decide_eq_false_2 (n = "")) by exact Hn.
    rewrite bool_decide_eq_true_2 by reflexivity. eexists. reflexivity.
Qed.

Lemma process_file_returns root c name :
  root ≠ "" → name ≠ "" → newline_free name →
  returns (process_file idn cwd ignored root c name).
Proof.
  intros Hroot Hne Hnl.
  destruct (new_item_destination root name Hne Hnl) as (it & n & Hit & _ & Hdir & Hd & Hn).
  destruct (is_valid_returns it n Hd Hn) as [v Hv].
  unfold process_file. rewrite Hit. cbn [mbind res_bind]. rewrite Hv.
  cbn [mbind res_bind].
  destruct (negb v || ignored (filename it)); [eexists; reflexivity|].
  apply (valid_add_returns idn idn_plain).
  - rewrite Hdir. exact Hroot.
  - rewrite Hd. discriminate.
Qed.

Lemma process_files_returns root files c :
  root ≠ "" → Forall (fun name => name ≠ "" ∧ newline_free name) files →
  returns (process_files idn cwd ignored root c files).
Proof.
  intros Hroot Hfiles. revert c.
  induction Hfiles as [|name files [Hne Hnl] _ IH]; intros c.
  { eexists. reflexivity. }
  rewrite process_files_cons.
  destruct (process_file_returns root c name Hroot Hne Hnl) as [c1 ->].
  cbn [mbind res_bind]. apply IH.
Qed.

Lemma visit_all_returns sr dr walk st :
  well_named walk → returns (visit_all idn cwd ignored sr dr st walk).
Proof.
  intros Hwalk. revert st.
  induction Hwalk as [|[[root dirs] files] walk [Hroot Hfiles] _ IH]; intros st.
  { eexists. reflexivity. }
  rewrite visit_all_cons.
  assert (returns (visit idn cwd ignored sr dr st (root, dirs, files))) as [st1 ->].
  { unfold visit. destruct (relpath_returns cwd root sr Hroot) as [rel ->].
    cbn [mbind res_bind]. destruct (ignored rel); [eexists; reflexivity|].
    destruct (process_files_returns root files st.1 Hroot Hfiles) as [c' ->].
    cbn [mbind res_bind]. destruct dirs; eexists; reflexivity. }
  cbn [mbind res_bind]. apply IH.
Qed.

End plain_walk_facts.

Section walk_extras.
Import Patterns Inputs.

Lemma dotfiles_plan :
  plan alice_box1 "/" ignores_readme "/src" "/out" dotfiles_walk
  = Ret (dotfiles_links, {["/out/vim"]}).
Proof. vm_compute. reflexivity. Qed.

Lemma dotfiles_well_named : well_named dotfiles_walk.
Proof. repeat constructor; compute_done. Qed.

(** X11. The walk of [main] amounts to a sequence of [add] calls on a new
    container whose roots are the absolute source and destination; the
    items added are exactly those of the files that are valid and not
    ignored, in directories that are not ignored. *)
Theorem plan_is_sequence_of_adds idn cwd ignored src dst walk c ds :
  plan idn cwd ignored src dst walk = Ret (c, ds) →
  ∃ l, add_all idn cwd (new_container (posixpath.abspath cwd src)
                          (posixpath.abspath cwd dst)) l = Ret c ∧
       ∀ it, it ∈ l ↔ accepted idn cwd ignored (posixpath.abspath cwd src) walk it.
Proof. intros H. by apply plan_add_all in H as [Hl _]. Qed.

Lemma plan_is_sequence_of_adds_witness :
  plan alice_box1 "/" ignores_readme "/src" "/out" dotfiles_walk
  = Ret (dotfiles_links, {["/out/vim"]}) ∧
  ∃ l, add_all alice_box1 "/" (new_container (posixpath.abspath "/" "/src")
                                 (posixpath.abspath "/" "/out")) l
       = Ret dotfiles_links ∧
       ∀ it, it ∈ l ↔ accepted alice_box1 "/" ignores_readme
                        (posixpath.abspath "/" "/src") dotfiles_walk it.
Proof.
  split; [exact dotfiles_plan|].
  exact (plan_is_sequence_of_adds alice_box1 "/" ignores_readme "/src" "/out"
           dotfiles_walk dotfiles_links {["/out/vim"]} dotfiles_plan).
Defined.

(** X12. After the walk every key of the dict holds the source and the
    priority of an accepted file with that destination, no accepted file
    with that destination has a higher priority, and every accepted file
    has its destination among the keys. *)
Theorem plan_keeps_best_candidate idn cwd ignored src dst walk c ds :
  plan idn cwd ignored src dst walk = Ret (c, ds) →
  ∀ d, match _container c !! d with
       | Some e =>
           ∃ it, accepted idn cwd ignored (src_root c) walk it ∧
                 dst_of cwd c it = Ret d ∧
                 get_priority idn it = Ret (priority e) ∧
                 source e = src_of c it ∧
                 ∀ x p, accepted idn cwd ignored (src_root c) walk x →
                        dst_of cwd c x = Ret d → get_priority idn x = Ret p →
                        (p ≤ priority e)%Z
       | None =>
           ∀ x, accepted idn cwd ignored (src_root c) walk x → dst_of cwd c x ≠ Ret d
       end.
Proof.
  intros H d. apply plan_add_all in H as [(l & Hl & Hin) _].
  pose proof (add_all_roots _ _ _ _ _ Hl) as [Hsr Hdr].
  cbn [new_container src_root dst_root] in Hsr, Hdr.
  pose proof (add_all_tracks idn cwd (new_container _ _) l c eq_refl Hl d) as Ht.
  assert (∀ x, dst_of cwd (new_container (posixpath.abspath cwd src)
                             (posixpath.abspath cwd dst)) x
               = dst_of cwd c x) as Hdst.
  { intros x. apply dst_of_roots; by cbn [new_container src_root dst_root]. }
  rewrite Hsr. destruct (_container c !! d) as [e|].
  - apply selected_in in Ht as (it & Hit & Hd & Hp & Hs & Hmax).
    exists it. split; [by apply Hin|]. split; [by rewrite <-Hdst|].
    split; [exact Hp|]. split.
    + rewrite Hs. apply src_of_roots. by cbn [new_container src_root].
    + intros x p Hx Hxd Hxp. apply (Hmax x p); [by apply Hin|by rewrite Hdst|exact Hxp].
  - intros x Hx. rewrite <-Hdst. apply Ht. by apply Hin.
Qed.

Lemma plan_keeps_best_candidate_witness :
  plan alice_box1 "/" ignores_readme "/src" "/out" dotfiles_walk
  = Ret (dotfiles_links, {["/out/vim"]}) ∧
  ∀ d, match _container dotfiles_links !! d with
       | Some e =>
           ∃ it, accepted alice_box1 "/" ignores_readme (src_root dotfiles_links)
                   dotfiles_walk it ∧
                 dst_of "/" dotfiles_links it = Ret d ∧
                 get_priority alice_box1 it = Ret (priority e) ∧
                 source e = src_of dotfiles_links it ∧
                 ∀ x p, accepted alice_box1 "/" ignores_readme (src_root dotfiles_links)
                          dotfiles_walk x →
                        dst_of "/" dotfiles_links x = Ret d →
                        get_priority alice_box1 x = Ret p →
                        (p ≤ priority e)%Z
       | None =>
           ∀ x, accepted alice_box1 "/" ignores_readme (src_root dotfiles_links)
                  dotfiles_walk x →
                dst_of "/" dotfiles_links x ≠ Ret d
       end.
Proof.
  split; [exact dotfiles_plan|].
  exact (plan_keeps_best_candidate alice_box1 "/" ignores_readme "/src" "/out"
           dotfiles_walk dotfiles_links {["/out/vim"]} dotfiles_plan).
Defined.

(** X13. The directories that [main] makes are exactly the destinations
    of the walked directories that have no sub-directory and whose
    relative path is not ignored. *)
Theorem plan_directories_are_leaves idn cwd ignored src dst walk c ds :
  plan idn cwd ignored src dst walk = Ret (c, ds) →
  ∀ d, d ∈ ds ↔ leaf_directory cwd ignored (posixpath.abspath cwd src)
                  (posixpath.abspath cwd dst) walk d.
Proof. intros H. by apply plan_add_all in H as [_ Hd]. Qed.

Lemma plan_directories_are_leaves_witness :
  plan alice_box1 "/" ignores_readme "/src" "/out" dotfiles_walk
  = Ret (dotfiles_links, {["/out/vim"]}) ∧
  ∀ d, d ∈ ({["/out/vim"]} : gset string)
       ↔ leaf_directory "/" ignores_readme (posixpath.abspath "/" "/src")
           (posixpath.abspath "/" "/out") dotfiles_walk d.
Proof.
  split; [exact dotfiles_plan|].
  exact (plan_directories_are_leaves alice_box1 "/" ignores_readme "/src" "/out"
           dotfiles_walk dotfiles_links {["/out/vim"]} dotfiles_plan).
Defined.

(** X14. For an identity without special characters of [re], every
    priority stored by the walk lies between 0 and 3: a file whose
    qualifier names another user or host never reaches the dict. *)
Theorem plan_priorities_in_range idn cwd ignored src dst walk c ds d e :
  plain_identity idn →
  plan idn cwd ignored src dst walk = Ret (c, ds) →
  _container c !! d = Some e →
  (0 ≤ priority e ≤ 3)%Z.
Proof.
  intros Hplain H He. apply plan_add_all in H as [(l & Hl & Hin) _].
  pose proof (add_all_tracks idn cwd (new_container _ _) l c eq_refl Hl d) as Ht.
  rewrite He in Ht.
  apply selected_in in Ht as (it & Hit & _ & Hp & _).
  apply Hin in Hit as (root & dirs & files & rel & _ & _ & _ & name & _ & _ & Hv & _).
  pose proof (valid_priority_nonneg idn Hplain it _ Hv Hp).
  pose proof (get_priority_range idn Hplain it _ Hp). lia.
Qed.

Lemma plan_priorities_in_range_witness :
  (plain_identity alice_box1 ∧
   plan alice_box1 "/" ignores_readme "/src" "/out" dotfiles_walk
   = Ret (dotfiles_links, {["/out/vim"]}) ∧
   _container dotfiles_links !! "/out/config" = Some (Entry "/src/config<alice>" 2%Z)) ∧
  (0 ≤ priority (Entry "/src/config<alice>" 2%Z) ≤ 3)%Z.
Proof.
  split; [split_and!; [compute_done|exact dotfiles_plan|vm_compute; reflexivity]|].
  apply (plan_priorities_in_range alice_box1 "/" ignores_readme "/src" "/out"
           dotfiles_walk dotfiles_links {["/out/vim"]} "/out/config");
    [compute_done|exact dotfiles_plan|vm_compute; reflexivity].
Defined.

(** X15. When the working directory is an absolute path, so are the two
    roots of the container, every key of the dict and every directory to
    make, also for a relative source or destination argument. *)
Theorem plan_paths_absolute idn cwd ignored src dst walk c ds :
  posixpath.isabs cwd = true →
  plan idn cwd ignored src dst walk = Ret (c, ds) →
  posixpath.isabs (src_root c) = true ∧ posixpath.isabs (dst_root c) = true ∧
  (∀ d, is_Some (_container c !! d) → posixpath.isabs d = true) ∧
  (∀ d, d ∈ ds → posixpath.isabs d = true).
Proof.
  intros Hcwd H. apply plan_add_all in H as [(l & Hl & Hin) Hds].
  pose proof (add_all_roots _ _ _ _ _ Hl) as [Hsr Hdr].
  cbn [new_container src_root dst_root] in Hsr, Hdr. rewrite Hsr, Hdr.
  split; [by apply abspath_isabs|]. split; [by apply abspath_isabs|]. split.
  - intros d [e He].
    pose proof (add_all_tracks idn cwd (new_container _ _) l c eq_refl Hl d) as Ht.
    rewrite He in Ht.
    apply selected_in in Ht as (it & _ & Hd & _).
    unfold dst_of in Hd.
    destruct (posixpath.relpath _ _ _) as [rel|]; [|discriminate Hd].
    cbn [mbind res_bind] in Hd.
    destruct (destination it) as [name|]; [|discriminate Hd].
    injection Hd as <-. by apply abspath_isabs.
  - intros d (root & files & rel & _ & _ & _ & ->)%Hds. by apply abspath_isabs.
Qed.

Lemma plan_paths_absolute_witness :
  let c := Container
             {["/home/alice/config" := Entry "/home/alice/dotfiles/config<alice>" 2%Z]}
             "/home/alice/dotfiles" "/home/alice" in
  let ds : gset string := {["/home/alice"]} in
  (posixpath.isabs "/home/alice/dotfiles" = true ∧
   plan alice_box1 "/home/alice/dotfiles" never_ignored "." ".."
     [("/home/alice/dotfiles", [], ["config<alice>"])] = Ret (c, ds)) ∧
  posixpath.isabs (src_root c) = true ∧ posixpath.isabs (dst_root c) = true ∧
  (∀ d, is_Some (_container c !! d) → posixpath.isabs d = true) ∧
  (∀ d, d ∈ ds → posixpath.isabs d = true).
Proof.
  split; [split; [reflexivity|vm_compute; reflexivity]|].
  apply (plan_paths_absolute alice_box1 "/home/alice/dotfiles" never_ignored "." ".."
           [("/home/alice/dotfiles", [], ["config<alice>"])]);
    [reflexivity|vm_compute; reflexivity].
Defined.

(** X16. For an identity without special characters of [re], the walk
    raises nothing when every walked directory has a non-empty path and
    every file name is non-empty and has no newline. *)
Theorem plan_returns idn cwd ignored src dst walk :
  plain_identity idn → well_named walk →
  returns (plan idn cwd ignored src dst walk).
Proof. intros Hplain Hwalk. by apply visit_all_returns. Qed.

Lemma plan_returns_witness :
  (plain_identity alice_box1 ∧ well_named dotfiles_walk) ∧
  returns (plan alice_box1 "/" ignores_readme "/src" "/out" dotfiles_walk).
Proof.
  split; [split; [compute_done|exact dotfiles_well_named]|].
  apply (plan_returns alice_box1 "/" ignores_readme "/src" "/out" dotfiles_walk);
    [compute_done|exact dotfiles_well_named].
Defined.

End walk_extras.

(** * The calls that change the file system *)

Section effect_facts.
Context {W : Type} (os : os_calls W).

Lemma link_all_dry force w pairs :
  link_all os force true w pairs
  = (w,
     (fun src_dst => CPrinter.green src_dst.2 +:+ " --> " +:+ CPrinter.blue src_dst.1)
       <$> pairs,
     None).
Proof.
  induction pairs as [|[src dst] pairs IH]; [reflexivity|].
  cbn [link_all link_one]. rewrite IH. reflexivity.
Qed.

Lemma make_directories_dry verbose w l :
  ∃ out, make_directories os verbose true w l = (w, out, None).
Proof.
  induction l as [|d l [out IH]]; [by eexists|].
  cbn [make_directories make_directory]. rewrite IH. by eexists.
Qed.

Lemma realize_dry verbose force c ds w :
  ∃ out, realize os verbose true force c ds w = (w, out, None).
Proof.
  unfold realize. destruct (make_directories_dry verbose w (elements ds)) as [out1 ->].
  unfold generate. rewrite link_all_dry. by eexists.
Qed.

Lemma make_directory_error verbose dry w d w1 out e :
  make_directory os verbose dry w d = (w1, out, Some e) → e ≠ FileExistsError.
Proof.
  unfold make_directory. destruct dry; [discriminate|].
  destruct (makedirs os w d) as [w2|[|]]; [discriminate..|].
  by intros [= _ _ <-].
Qed.

End effect_facts.

Lemma lower_char_y c : lower_char c = "y"%char → c = "y"%char ∨ c = "Y"%char.
Proof.
  destruct c as [[] [] [] [] [] [] [] []]; vm_compute; intros H;
    first [discriminate H | by left | by right].
Qed.

Lemma lower_y s : lower s = "y" ↔ s = "y" ∨ s = "Y".
Proof.
  split; [|by intros [->| ->]].
  destruct s as [|c s]; [done|]. cbn [lower]. intros [= Hc Hs].
  destruct s; [|discriminate Hs].
  by apply lower_char_y in Hc as [->| ->]; [left|right].
Qed.

Section effect_extras.
Import Patterns Inputs.

(** X17. In dry mode [generate] calls nothing that changes the file
    system and raises nothing, with or without [force]: it prints the
    header and one line for each pair of the container. *)
Theorem generate_dry_run {W} (os : os_calls W) c force w :
  generate os c force true w
  = (w,
     CPrinter.yellow "Symlinks to create:"
       :: ((fun src_dst => CPrinter.green src_dst.2 +:+ " --> " +:+ CPrinter.blue src_dst.1)
             <$> items c),
     None).
Proof. unfold generate. by rewrite link_all_dry. Qed.

(** X18. The loop over the directories never ends with
    [FileExistsError]: the exception of [os.makedirs] for a directory that
    exists is caught, and the loop goes on. *)
Theorem make_directories_never_FileExistsError {W} (os : os_calls W)
    verbose dry w directories :
  (make_directories os verbose dry w directories).2 ≠ Some FileExistsError.
Proof.
  revert w. induction directories as [|d l IH]; intros w; [done|].
  cbn [make_directories].
  destruct (make_directory os verbose dry w d) as [[w1 out1] [e|]] eqn:H1.
  - cbn [snd]. intros [= ->]. by apply make_directory_error in H1.
  - specialize (IH w1). by destruct (make_directories os verbose dry w1 l) as [[w2 out2] r].
Qed.

(** X19. Without [force], [generate] removes nothing: what it does
    depends on [os.symlink] alone, not on what exists at a destination. *)
Theorem generate_without_force_only_links {W} (os os' : os_calls W) c dry w :
  (∀ w src dst, symlink os w src dst = symlink os' w src dst) →
  generate os c false dry w = generate os' c false dry w.
Proof.
  intros Hsym. unfold generate.
  assert (∀ l w, link_all os false dry w l = link_all os' false dry w l) as ->; [|done].
  induction l as [|[src dst] l IH]; intros w0; [done|].
  cbn [link_all link_one andb]. rewrite Hsym.
  destruct dry; [by rewrite IH|].
  destruct (symlink os' w0 src dst); [by rewrite IH|done].
Qed.

Lemma generate_without_force_only_links_witness :
  (∀ w src dst, symlink recording_os w src dst = symlink no_unlink_os w src dst) ∧
  generate recording_os dotfiles_links false false ["/out/bashrc"]
  = generate no_unlink_os dotfiles_links false false ["/out/bashrc"].
Proof.
  split; [intros; reflexivity|].
  apply (generate_without_force_only_links recording_os no_unlink_os).
  intros; reflexivity.
Defined.

(** X20. [main] changes the file system only when it runs without
    [--dry] and the answer to its question is [y] or [Y]. *)
Theorem main_changes_need_consent {W} (os : os_calls W) cwd fnmatch args answer
    ignore walk w :
  (main os cwd fnmatch args answer ignore walk w).1 ≠ w →
  arg_dry args = false ∧ (answer = "y" ∨ answer = "Y").
Proof.
  unfold main. destruct (arg_dry args) eqn:Hdry; cbn [negb andb].
  - intros H. exfalso. apply H.
    destruct (plan _ _ _ _ _ _) as [[c ds]|e]; [|done].
    by destruct (realize_dry os (arg_verbose args) (arg_force args) c ds w) as [out ->].
  - case_bool_decide as Hy; cbn [negb]; [|done].
    intros _. split; [done|]. by apply lower_y.
Qed.

Lemma main_changes_need_consent_witness :
  (main recording_os "/" exact_fnmatch forced_args "Y" NoFile dotfiles_walk []).1 ≠ [] ∧
  arg_dry forced_args = false ∧ ("Y" = "y" ∨ "Y" = "Y").
Proof.
  assert ((main recording_os "/" exact_fnmatch forced_args "Y" NoFile dotfiles_walk []).1
          ≠ []) as Hne by (vm_compute; discriminate).
  split; [exact Hne|].
  apply (main_changes_need_consent recording_os "/" exact_fnmatch forced_args "Y" NoFile
           dotfiles_walk []).
  exact Hne.
Defined.

(** X21. An exception raised during the walk, such as the [TypeError]
    for a file name that does not parse, ends [main] before any call that
    changes the file system. *)
Theorem main_walk_error_changes_nothing {W} (os : os_calls W) cwd fnmatch args answer
    ignore walk w w' e :
  main os cwd fnmatch args answer ignore walk w = (w', Uncaught e) →
  w' = w.
Proof.
  unfold main. destruct (_ && _); [by intros [= <-]|].
  destruct (plan _ _ _ _ _ _) as [[c ds]|e']; [|by intros [= <-]].
  by destruct (realize _ _ _ _ _ _ _) as [[w1 out] [e1|]].
Qed.

Lemma main_walk_error_changes_nothing_witness :
  main recording_os "/" exact_fnmatch forced_args "y" NoFile
    [("/src", [], ["bashrc"; two_lines])] ["/out"] = (["/out"], Uncaught TypeError) ∧
  ["/out"] = ["/out"].
Proof.
  assert (main recording_os "/" exact_fnmatch forced_args "y" NoFile
            [("/src", [], ["bashrc"; two_lines])] ["/out"] = (["/out"], Uncaught TypeError))
    as H by (vm_compute; reflexivity).
  split; [exact H|].
  exact (main_walk_error_changes_nothing recording_os "/" exact_fnmatch forced_args "y"
           NoFile [("/src", [], ["bashrc"; two_lines])] ["/out"] ["/out"] TypeError H).
Defined.



End effect_extras.

(** * The ignore file *)

Section ignore_extras.

Lemma find_is_Some {A} (f : A → bool) l :
  is_Some (List.find f l) ↔ ∃ x, x ∈ l ∧ f x = true.
Proof.
  induction l as [|a l IH]; simpl.
  - split; [by intros [? ?]|]. intros (x & Hx%elem_of_nil & _). done.
  - destruct (f a) eqn:Ha.
    + split; [|by eexists]. intros _. exists a. split; [by left|done].
    + rewrite IH. split.
      * intros (x & Hx & Hfx). exists x. split; [by right|done].
      * intros (x & [->|Hx]%elem_of_cons & Hfx); [congruence|]. by exists x.
Qed.

Lemma find_Some_elem {A} (f : A → bool) l x :
  List.find f l = Some x → x ∈ l ∧ f x = true.
Proof.
  induction l as [|a l IH]; simpl; [done|].
  destruct (f a) eqn:Ha.
  - intros [= <-]. split; [by left|done].
  - intros [Hx Hf]%IH. split; [by right|done].
Qed.

Lemma elem_of_ignore_matches l pat :
  pat ∈ ignore_matches (Lines l) ↔ pat ≠ "" ∧ ∃ line, line ∈ l ∧ pat = strip line.
Proof.
  unfold ignore_matches. rewrite elem_of_remove_dups, list_elem_of_filter, list_elem_of_fmap.
  split.
  - intros [Hne (line & -> & Hl)]. split; [done|]. by exists line.
  - intros [Hne (line & Hl & ->)]. split; [done|]. by exists line.
Qed.

(** X23. What the matcher made by [ignore_matcher_creator] returns is
    true exactly when the ignore file exists and the name matches a line
    of it, once the white space around the line is removed; lines of white
    space alone are not patterns. What is returned is then such a
    pattern. *)
Theorem ignored_iff fnmatch f item :
  (truthy (ignore_matcher_creator fnmatch f item) = true ↔
   ∃ l line, f = Lines l ∧ line ∈ l ∧ strip line ≠ "" ∧
             fnmatch item (strip line) = true) ∧
  (∀ pat, ignore_matcher_creator fnmatch f item = Some pat →
          pat ≠ "" ∧ fnmatch item pat = true ∧
          ∃ l line, f = Lines l ∧ line ∈ l ∧ pat = strip line).
Proof.
  assert (∀ pat, ignore_matcher_creator fnmatch f item = Some pat →
          pat ≠ "" ∧ fnmatch item pat = true ∧
          ∃ l line, f = Lines l ∧ line ∈ l ∧ pat = strip line) as Hres.
  { intros pat [Hin Hm]%find_Some_elem. destruct f as [|l].
    { by apply elem_of_nil in Hin. }
    apply elem_of_ignore_matches in Hin as [Hne (line & Hl & ->)].
    split; [done|]. split; [done|]. by exists l, line. }
  split; [|exact Hres]. split.
  - destruct (ignore_matcher_creator fnmatch f item) as [pat|] eqn:E; [|done].
    intros _. destruct (Hres pat eq_refl) as (Hne & Hm & l & line & -> & Hl & ->).
    by exists l, line.
  - intros (l & line & -> & Hl & Hne & Hm).
    assert (is_Some (ignore_matcher_creator fnmatch (Lines l) item)) as [pat Hpat].
    { apply find_is_Some. exists (strip line). split; [|done].
      apply elem_of_ignore_matches. split; [done|]. by exists line. }
    rewrite Hpat. apply Hres in Hpat as [Hne' _]. simpl.
    by rewrite bool_decide_eq_false_2.
Qed.

End ignore_extras.

(** * Iteration and indexing *)

Section iter_extras.

(** X24. Iterating over a container yields, for each key of the dict
    once, the pair that indexing the container with that key returns. *)
Theorem iter_agrees_with_getitem c :
  NoDup (items c).*2 ∧
  ∀ src dst, (src, dst) ∈ items c ↔ SymlinkContainer_getitem c dst = Some (src, dst).
Proof.
  split; [apply items_NoDup|].
  intros src dst. unfold items, SymlinkContainer_getitem.
  rewrite list_elem_of_fmap. split.
  - intros ([k e] & [= -> ->] & Hin). apply elem_of_map_to_list in Hin.
    by rewrite Hin.
  - destruct (_container c !! dst) as [e|] eqn:He; [|done]. simpl.
    intros [= <-]. exists (dst, e). split; [done|]. by apply elem_of_map_to_list.
Qed.

End iter_extras.
